(** * STM32BootManager: a shallow embedding of [STM32BootManager.h]

    The class keeps three fields (the capability pointer, the erase flag and
    the write cursor) and drives the flash through a table of function
    pointers.  The embedding keeps that shape:

    - 32-bit and 16-bit unsigned values are [Z] with the wrap-around written
      out ([wrap32], [wrap16]); a [size_t] length is a [Z], and no statement
      below depends on its width;
    - the address space is a function from addresses to bytes; pointers
      ([dst], [data], [buffer], [dp]) are addresses;
    - the capability table [BootOperations] is a record of functions on the
      machine state, and the manager's pointer to it is an [option];
    - every call made through the table is appended to a log, so that the
      order and the number of hardware calls can be stated;
    - methods are computations in a small state monad over the manager's
      fields, the machine and the log; [read] takes fuel because its loop
      need not end, and [jump_to_app] has an outcome type because it need
      not come back. *)

From Stdlib Require Import ZArith List Bool Lia.
From Stdlib Require Import Strings.String Strings.Byte.
Import ListNotations.
Open Scope Z_scope.

(** ** Constants of the header *)

Definition START_ADDRESS : Z := 0x08006000.
Definition END_ADDRESS : Z := 0x08020000.
Definition PAGE_SIZE : Z := 0x800.
Definition METADATA_SIZE : Z := 4.

(** ** Machine integers *)

Definition wrap32 (x : Z) : Z := x mod 2 ^ 32.
Definition wrap16 (x : Z) : Z := x mod 2 ^ 16.

(** [~x] on a [uint32_t]. *)
Definition not32 (x : Z) : Z := wrap32 (Z.lnot x).

Arguments wrap32 _ : simpl never.
Arguments wrap16 _ : simpl never.
Arguments not32 _ : simpl never.

(** ** Memory *)

Definition memory : Type := Z -> byte.

Definition Z_of_byte (b : byte) : Z := Z.of_N (Byte.to_N b).

Definition byte_of_Z (z : Z) : byte :=
  match Byte.of_N (Z.to_N (z mod 256)) with
  | Some b => b
  | None => x00
  end.

(** [*dp] for [const unsigned char* dp]. *)
Definition load8 (m : memory) (a : Z) : Z := Z_of_byte (m a).

(** [*(uint32_t* )a], little-endian as on the Cortex-M targets. *)
Definition load32 (m : memory) (a : Z) : Z :=
  load8 m a
  + Z.shiftl (load8 m (a + 1)) 8
  + Z.shiftl (load8 m (a + 2)) 16
  + Z.shiftl (load8 m (a + 3)) 24.

(** [*(uint32_t* )a = v]. *)
Definition store32 (m : memory) (a v : Z) : memory :=
  fun x =>
    if (a <=? x) && (x <? a + 4)
    then byte_of_Z (Z.land (Z.shiftr v (8 * (x - a))) 0xFF)
    else m x.

(** ** The capability table *)

Module BootOps.

(** The machine a capability acts on: the addressable memory and the
    state [D] of the peripherals (flash controller, SysTick, ...). *)
Record Machine (D : Type) : Type := mkMachine {
  mem : memory;
  dev : D
}.
Arguments mkMachine {D} _ _.
Arguments mem {D} _.
Arguments dev {D} _.

(** [struct BootOperations].  [unlock] and [lock] are the flash
    controller's key and lock sequence: they act on the peripheral state
    and leave the addressable memory as it is.  [write] receives the
    target address, the address of the source buffer and the length. *)
Record BootOperations (D : Type) : Type := mkBootOperations {
  unlock : D -> D;
  lock : D -> D;
  write : Z -> Z -> Z -> Machine D -> bool * Machine D;
  erase_app : Machine D -> bool * Machine D;
  deinit_peripherals : Machine D -> Machine D;
  deinit_systick : Machine D -> Machine D
}.
Arguments mkBootOperations {D} _ _ _ _ _ _.
Arguments unlock {D} _ _.
Arguments lock {D} _ _.
Arguments write {D} _ _ _ _ _.
Arguments erase_app {D} _ _.
Arguments deinit_peripherals {D} _ _.
Arguments deinit_systick {D} _ _.

End BootOps.

Abbreviation Machine := BootOps.Machine.
Abbreviation BootOperations := BootOps.BootOperations.
Abbreviation mem := BootOps.mem.
Abbreviation dev := BootOps.dev.

(** Calls made through the table, in the order they are made. *)
Inductive event : Type :=
| EvUnlock
| EvLock
| EvWrite (address data size : Z) (ret : bool)
| EvErase (ret : bool)
| EvDeinitPeripherals
| EvDeinitSystick.

(** ** The CRC table and the byte fold *)

Definition CRC32_POLYNOMIALL : Z := 0xEDB88320.

(** The inner [for (j ...)] loop of the table construction. *)
Fixpoint table_rem (j : nat) (rem : Z) : Z :=
  match j with
  | O => rem
  | S j' =>
      table_rem j'
        (if Z.land rem 1 =? 1
         then Z.lxor (Z.shiftr rem 1) CRC32_POLYNOMIALL
         else Z.shiftr rem 1)
  end.

(** [table[i]] for [i] from 0 to 255.  The source fills the [static] array
    at the first call and keeps it; the entries do not depend on when they
    are computed, so the table is a constant here. *)
Definition table : list Z :=
  map (fun i => table_rem 8 (Z.of_nat i)) (seq 0 256).

Definition table_at (i : Z) : Z := nth (Z.to_nat i) table 0.

(** One turn of the [while (len > 0)] loop. *)
Definition crc_step (crc b : Z) : Z :=
  Z.lxor (table_at (Z.land (Z.lxor crc b) 0xFF)) (Z.shiftr crc 8).

(** The [while (len > 0)] loop: [len] bytes from [dp] upwards. *)
Fixpoint crc_loop (len : nat) (m : memory) (dp crc : Z) : Z :=
  match len with
  | O => crc
  | S len' => crc_loop len' m (dp + 1) (crc_step crc (load8 m dp))
  end.

(** ** The copy loop of [read] *)

(** [*(((uint32_t* )dst) + i) = *(((uint32_t* )src) + i)]. *)
Definition copy_word (m : memory) (src dst i : Z) : memory :=
  store32 m (dst + 4 * i) (load32 m (src + 4 * i)).

(** [for (uint16_t i = 0; i < size / 4; ++i)]: the index is 16 bits wide and
    is compared with the full-width [size / 4].  [None] is running out of
    fuel. *)
Fixpoint read_loop (fuel : nat) (src dst size i : Z) (m : memory)
  : option memory :=
  match fuel with
  | O => None
  | S fuel' =>
      if i <? size / 4
      then read_loop fuel' src dst size (wrap16 (i + 1)) (copy_word m src dst i)
      else Some m
  end.

(** The words the copy loop moves when it runs [k] turns from index [i]
    without the index wrapping. *)
Fixpoint copy_words (k : nat) (m : memory) (src dst i : Z) : memory :=
  match k with
  | O => m
  | S k' => copy_words k' (copy_word m src dst i) src dst (i + 1)
  end.

(** ** The manager *)

Section Manager.

Variable D : Type.

(** The private fields of the class. *)
Record Manager : Type := mkManager {
  m_operations : option (BootOperations D);
  m_was_erased : bool;
  m_write_pointer : Z
}.

(** The manager, the machine it runs on, and the calls made so far. *)
Record Sys : Type := mkSys {
  self : Manager;
  mach : Machine D;
  log : list event
}.

(** The constructor. *)
Definition STM32BootManager (operations : option (BootOperations D))
  : Manager :=
  {| m_operations := operations;
     m_was_erased := false;
     m_write_pointer := START_ADDRESS |}.

Definition fresh (operations : option (BootOperations D))
           (mc : Machine D) : Sys :=
  {| self := STM32BootManager operations; mach := mc; log := [] |}.

(** *** The state monad *)

Definition M (A : Type) : Type := Sys -> A * Sys.

Definition ret {A} (a : A) : M A := fun s => (a, s).

Definition bind {A B} (c : M A) (k : A -> M B) : M B :=
  fun s => let (a, s') := c s in k a s'.

Notation "x <- c ;; k" := (bind c (fun x => k))
  (at level 61, c at next level, right associativity).
Notation "c ;; k" := (bind c (fun _ => k))
  (at level 61, right associativity).

Definition get_operations : M (option (BootOperations D)) :=
  fun s => (m_operations (self s), s).

Definition get_was_erased : M bool :=
  fun s => (m_was_erased (self s), s).

Definition get_write_pointer : M Z :=
  fun s => (m_write_pointer (self s), s).

Definition set_was_erased (b : bool) : M unit :=
  fun s =>
    (tt, {| self := {| m_operations := m_operations (self s);
                       m_was_erased := b;
                       m_write_pointer := m_write_pointer (self s) |};
            mach := mach s; log := log s |}).

Definition set_write_pointer (p : Z) : M unit :=
  fun s =>
    (tt, {| self := {| m_operations := m_operations (self s);
                       m_was_erased := m_was_erased (self s);
                       m_write_pointer := p |};
            mach := mach s; log := log s |}).

Definition set_mem (m : memory) (s : Sys) : Sys :=
  {| self := self s;
     mach := BootOps.mkMachine m (dev (mach s));
     log := log s |}.

(** *** Calls through [m_operations->...] *)

Definition call_unlock (o : BootOperations D) : M unit :=
  fun s =>
    (tt, {| self := self s;
            mach := BootOps.mkMachine (mem (mach s))
                      (BootOps.unlock o (dev (mach s)));
            log := log s ++ [EvUnlock] |}).

Definition call_lock (o : BootOperations D) : M unit :=
  fun s =>
    (tt, {| self := self s;
            mach := BootOps.mkMachine (mem (mach s))
                      (BootOps.lock o (dev (mach s)));
            log := log s ++ [EvLock] |}).

Definition call_write (o : BootOperations D) (address data size : Z)
  : M bool :=
  fun s =>
    let (r, mc) := BootOps.write o address data size (mach s) in
    (r, {| self := self s; mach := mc;
           log := log s ++ [EvWrite address data size r] |}).

Definition call_erase_app (o : BootOperations D) : M bool :=
  fun s =>
    let (r, mc) := BootOps.erase_app o (mach s) in
    (r, {| self := self s; mach := mc; log := log s ++ [EvErase r] |}).

Definition call_deinit_peripherals (o : BootOperations D) : M unit :=
  fun s =>
    (tt, {| self := self s;
            mach := BootOps.deinit_peripherals o (mach s);
            log := log s ++ [EvDeinitPeripherals] |}).

Definition call_deinit_systick (o : BootOperations D) : M unit :=
  fun s =>
    (tt, {| self := self s;
            mach := BootOps.deinit_systick o (mach s);
            log := log s ++ [EvDeinitSystick] |}).

(** *** Methods *)

(** [bool erase_app()] (protected). *)
Definition erase_app : M bool :=
  ops <- get_operations ;;
  match ops with
  | None => ret false
  | Some o =>
      call_unlock o ;;
      r <- call_erase_app o ;;
      call_lock o ;;
      (if r then set_was_erased true else ret tt) ;;
      ret r
  end.

(** [bool write(const uint32_t& start, uint8_t* data, const size_t& size)]. *)
Definition write (start data size : Z) : M bool :=
  ops <- get_operations ;;
  match ops with
  | None => ret false
  | Some o =>
      erased <- get_was_erased ;;
      ok <- (if negb erased then erase_app else ret true) ;;
      if negb ok then ret false
      else
        call_unlock o ;;
        r <- call_write o start data size ;;
        call_lock o ;;
        ret r
  end.

(** [bool write_continously(uint8_t* buffer, const size_t& size)]. *)
Definition write_continously (buffer size : Z) : M bool :=
  erased <- get_was_erased ;;
  ok <- (if negb erased then erase_app else ret true) ;;
  if negb ok then ret false
  else
    p <- get_write_pointer ;;
    r <- write p buffer size ;;
    (if r then
       p' <- get_write_pointer ;;
       set_write_pointer (wrap32 (p' + size))
     else ret tt) ;;
    ret r.

(** [bool read(const uint32_t& address, uint8_t* dst, const size_t& size)].
    [None] when the copy loop has not ended within [fuel] turns. *)
Definition read (fuel : nat) (address dst size : Z) (s : Sys)
  : option (bool * Sys) :=
  match m_operations (self s) with
  | None => Some (false, s)
  | Some o =>
      let (_, s1) := call_unlock o s in
      match read_loop fuel address dst size 0 (mem (mach s1)) with
      | None => None
      | Some m' =>
          let (_, s2) := call_lock o (set_mem m' s1) in
          Some (true, s2)
      end
  end.

(** [uint32_t calculate_crc() const]. *)
Definition calculate_crc : M Z :=
  ops <- get_operations ;;
  match ops with
  | None => ret 0
  | Some o =>
      call_unlock o ;;
      fun s =>
        let crc := 0 in
        let len := wrap32 ((END_ADDRESS - START_ADDRESS) - METADATA_SIZE) in
        let crc := not32 crc in
        let dp := START_ADDRESS in
        let crc := crc_loop (Z.to_nat len) (mem (mach s)) dp crc in
        (call_lock o ;; ret (not32 crc)) s
  end.

(** What a call of [jump_to_app] ends in: it comes back to its caller, or
    control has gone to [entry] for good. *)
Inductive Outcome : Type :=
| Returned (s : Sys)
| Transferred (entry : Z) (s : Sys).

(** [void jump_to_app()]. *)
Definition jump_to_app (s : Sys) : Outcome :=
  match m_operations (self s) with
  | None => Returned s
  | Some o =>
      let (_, s1) := call_deinit_peripherals o s in
      let SysJump := load32 (mem (mach s1)) (START_ADDRESS + 4) in
      let (_, s2) := call_deinit_systick o s1 in
      Transferred SysJump s2
  end.

(** [void set_bootloader_operations(BootOperations* operations)]. *)
Definition set_bootloader_operations
           (operations : option (BootOperations D)) : M unit :=
  fun s =>
    (tt, {| self := {| m_operations := operations;
                       m_was_erased := m_was_erased (self s);
                       m_write_pointer := m_write_pointer (self s) |};
            mach := mach s; log := log s |}).

Definition get_app_size : Z := wrap32 (END_ADDRESS - START_ADDRESS).
Definition get_app_start : Z := START_ADDRESS.
Definition get_app_end : Z := END_ADDRESS.
Definition get_page_size : Z := wrap16 PAGE_SIZE.

(** *** Sequences of write calls *)

Inductive call : Type :=
| CWrite (start data size : Z)
| CWriteCont (buffer size : Z).

Definition do_call (c : call) : M bool :=
  match c with
  | CWrite start data size => write start data size
  | CWriteCont buffer size => write_continously buffer size
  end.

Fixpoint run (cs : list call) : M (list bool) :=
  match cs with
  | [] => ret []
  | c :: cs' =>
      r <- do_call c ;;
      rs <- run cs' ;;
      ret (r :: rs)
  end.

End Manager.

Arguments mkManager {D} _ _ _.
Arguments m_operations {D} _.
Arguments m_was_erased {D} _.
Arguments m_write_pointer {D} _.
Arguments mkSys {D} _ _ _.
Arguments self {D} _.
Arguments mach {D} _.
Arguments log {D} _.
Arguments STM32BootManager {D} _.
Arguments fresh {D} _ _.
Arguments erase_app {D}.
Arguments write {D} _ _ _.
Arguments write_continously {D} _ _.
Arguments read {D} _ _ _ _ _.
Arguments calculate_crc {D}.
Arguments Returned {D} _.
Arguments Transferred {D} _ _.
Arguments jump_to_app {D} _.
Arguments set_bootloader_operations {D} _.
Arguments do_call {D} _.
Arguments run {D} _.

(** ** What the log says *)

(** The results of the [erase_app] calls, oldest first. *)
Fixpoint erase_events (l : list event) : list bool :=
  match l with
  | [] => []
  | EvErase r :: l' => r :: erase_events l'
  | _ :: l' => erase_events l'
  end.

(** The capability [write] calls, oldest first: address, length, result. *)
Fixpoint write_events (l : list event) : list (Z * Z * bool) :=
  match l with
  | [] => []
  | EvWrite a _ n r :: l' => (a, n, r) :: write_events l'
  | _ :: l' => write_events l'
  end.

Definition write_addresses (l : list event) : list Z :=
  map (fun w => fst (fst w)) (write_events l).

Definition write_sizes (l : list event) : list Z :=
  map (fun w => snd (fst w)) (write_events l).

Definition write_results (l : list event) : list bool :=
  map snd (write_events l).

(** [s1 + ... + sk]. *)
Definition sum (l : list Z) : Z := fold_right Z.add 0 l.

(** ** A capability double with in-memory flash

    The double answers [erase_app] and [write] from two scripts of results
    (an exhausted script answers [true]); a successful erase fills the
    application region with [0xFF], a successful write copies the buffer. *)

Module Double.

Record Dev : Type := mkDev {
  unlocked : bool;
  erase_script : list bool;
  write_script : list bool
}.

Definition unlock (d : Dev) : Dev :=
  {| unlocked := true;
     erase_script := erase_script d;
     write_script := write_script d |}.

Definition lock (d : Dev) : Dev :=
  {| unlocked := false;
     erase_script := erase_script d;
     write_script := write_script d |}.

Definition erase_app (mc : Machine Dev) : bool * Machine Dev :=
  let d := dev mc in
  let r := hd true (erase_script d) in
  let d' := {| unlocked := unlocked d;
               erase_script := tl (erase_script d);
               write_script := write_script d |} in
  (r, BootOps.mkMachine
        (if r
         then fun a =>
                if (START_ADDRESS <=? a) && (a <? END_ADDRESS)
                then xff else mem mc a
         else mem mc)
        d').

Definition write (address data size : Z) (mc : Machine Dev)
  : bool * Machine Dev :=
  let d := dev mc in
  let r := hd true (write_script d) in
  let d' := {| unlocked := unlocked d;
               erase_script := erase_script d;
               write_script := tl (write_script d) |} in
  (r, BootOps.mkMachine
        (if r
         then fun a =>
                if (address <=? a) && (a <? address + size)
                then mem mc (data + (a - address)) else mem mc a
         else mem mc)
        d').

Definition ops : BootOperations Dev :=
  {| BootOps.unlock := unlock;
     BootOps.lock := lock;
     BootOps.write := write;
     BootOps.erase_app := erase_app;
     BootOps.deinit_peripherals := fun mc => mc;
     BootOps.deinit_systick := fun mc => mc |}.

(** The same flash on hardware that never fails. *)
Definition erase_app_ok (mc : Machine Dev) : bool * Machine Dev :=
  (true, BootOps.mkMachine
           (fun a =>
              if (START_ADDRESS <=? a) && (a <? END_ADDRESS)
              then xff else mem mc a)
           (dev mc)).

Definition write_ok (address data size : Z) (mc : Machine Dev)
  : bool * Machine Dev :=
  (true, BootOps.mkMachine
           (fun a =>
              if (address <=? a) && (a <? address + size)
              then mem mc (data + (a - address)) else mem mc a)
           (dev mc)).

Definition ideal : BootOperations Dev :=
  {| BootOps.unlock := unlock;
     BootOps.lock := lock;
     BootOps.write := write_ok;
     BootOps.erase_app := erase_app_ok;
     BootOps.deinit_peripherals := fun mc => mc;
     BootOps.deinit_systick := fun mc => mc |}.

(** A machine whose memory holds [0xFF] everywhere but for [bytes], which
    lie from [base] upwards. *)
Definition mem_with (base : Z) (bytes : list byte) : memory :=
  fun a =>
    if (base <=? a) && (a <? base + Z.of_nat (List.length bytes))
    then nth (Z.to_nat (a - base)) bytes xff
    else xff.

Definition machine (m : memory) (erases writes : list bool) : Machine Dev :=
  BootOps.mkMachine m
    {| unlocked := false; erase_script := erases; write_script := writes |}.

End Double.

(** ** Sequences of [write_continously] calls *)

(** The addresses of the capability writes in a log are the running sums of
    the lengths written before, from [START_ADDRESS], in 32 bits. *)
Definition addresses_follow_sizes (l : list event) : Prop :=
  forall n, (n < List.length (write_events l))%nat ->
    nth n (write_addresses l) 0 =
      wrap32 (START_ADDRESS + sum (firstn n (write_sizes l))).

(** One [write_continously] call for each buffer address and length. *)
Definition writes_call (bs : list (Z * Z)) : list call :=
  map (fun b => CWriteCont (fst b) (snd b)) bs.

(** ** Bracketed hardware accesses

    Every flash access of the manager is [unlock], one capability call,
    [lock].  These are the machine transformers of such an access. *)

Section Bracket.

Context {D : Type}.

Definition unlocked (o : BootOperations D) (mc : Machine D) : Machine D :=
  BootOps.mkMachine (mem mc) (BootOps.unlock o (dev mc)).

Definition locked (o : BootOperations D) (mc : Machine D) : Machine D :=
  BootOps.mkMachine (mem mc) (BootOps.lock o (dev mc)).

Definition hw_erase (o : BootOperations D) (mc : Machine D)
  : bool * Machine D :=
  let (r, mc') := BootOps.erase_app o (unlocked o mc) in (r, locked o mc').

Definition hw_write (o : BootOperations D) (address data size : Z)
           (mc : Machine D) : bool * Machine D :=
  let (r, mc') := BootOps.write o address data size (unlocked o mc) in
  (r, locked o mc').

Definition with_erased (m : Manager D) : Manager D :=
  {| m_operations := m_operations m;
     m_was_erased := true;
     m_write_pointer := m_write_pointer m |}.

Definition with_pointer (m : Manager D) (p : Z) : Manager D :=
  {| m_operations := m_operations m;
     m_was_erased := m_was_erased m;
     m_write_pointer := p |}.

(** The address and the length a call hands to the capability. *)
Definition call_address (m : Manager D) (c : call) : Z :=
  match c with
  | CWrite start _ _ => start
  | CWriteCont _ _ => m_write_pointer m
  end.

Definition call_data (c : call) : Z :=
  match c with
  | CWrite _ data _ => data
  | CWriteCont buffer _ => buffer
  end.

Definition call_size (c : call) : Z :=
  match c with
  | CWrite _ _ size => size
  | CWriteCont _ size => size
  end.

(** The manager after call [c] has returned [r]. *)
Definition after_call (m : Manager D) (c : call) (r : bool) : Manager D :=
  match c with
  | CWrite _ _ _ => m
  | CWriteCont _ size =>
      if r then with_pointer m (wrap32 (m_write_pointer m + size)) else m
  end.

(** The invariant that ties the cursor to the log. *)
Definition cursor_inv (s : Sys D) : Prop :=
  forallb id (write_results (log s)) = true ->
  addresses_follow_sizes (log s) /\
  m_write_pointer (self s) =
    wrap32 (START_ADDRESS + sum (write_sizes (log s))).

End Bracket.

(** ** All public operations in sequence *)

Section Operations.

Context {D : Type}.

(** A call of one of the public methods that come back to their caller. *)
Inductive op : Type :=
| OpRead (address dst size : Z)
| OpWrite (start data size : Z)
| OpWriteCont (buffer size : Z)
| OpCalculateCrc
| OpSetOperations (operations : option (BootOperations D)).

(** What such a call hands back. *)
Inductive result : Type :=
| RBool (b : bool)
| RCrc (crc : Z)
| RVoid.

(** [None] when a [read] has not ended within [fuel] turns of its loop. *)
Definition do_op (fuel : nat) (p : op) (s : Sys D) : option (result * Sys D) :=
  match p with
  | OpRead address dst size =>
      match read fuel address dst size s with
      | Some (b, s') => Some (RBool b, s')
      | None => None
      end
  | OpWrite start data size =>
      let (b, s') := write start data size s in Some (RBool b, s')
  | OpWriteCont buffer size =>
      let (b, s') := write_continously buffer size s in Some (RBool b, s')
  | OpCalculateCrc =>
      let (crc, s') := calculate_crc s in Some (RCrc crc, s')
  | OpSetOperations operations =>
      let (_, s') := set_bootloader_operations operations s in
      Some (RVoid, s')
  end.

Fixpoint run_ops (fuel : nat) (ps : list op) (s : Sys D)
  : option (list result * Sys D) :=
  match ps with
  | [] => Some ([], s)
  | p :: ps' =>
      match do_op fuel p s with
      | None => None
      | Some (r, s1) =>
          match run_ops fuel ps' s1 with
          | None => None
          | Some (rs, s2) => Some (r :: rs, s2)
          end
      end
  end.

(** The bytes by which a call has moved the cursor. *)
Definition advance (p : op) (r : result) : Z :=
  match p, r with
  | OpWriteCont _ size, RBool true => size
  | _, _ => 0
  end.

Fixpoint advances (ps : list op) (rs : list result) : Z :=
  match ps, rs with
  | p :: ps', r :: rs' => advance p r + advances ps' rs'
  | _, _ => 0
  end.

End Operations.

Arguments op : clear implicits.

(** ** Bracketing of the log

    The flash is locked, unlocked with no access made yet, or unlocked with
    one access made.  [bracket_scan] follows a log through these states and
    fails on a capability call made while locked, on a second access under
    one unlock, and on an unlock or a deinit while unlocked. *)

Inductive bstate : Type := Locked | Open | Used.

Definition bracket_step (st : bstate) (e : event) : option bstate :=
  match st, e with
  | Locked, EvUnlock => Some Open
  | Locked, EvDeinitPeripherals => Some Locked
  | Locked, EvDeinitSystick => Some Locked
  | Open, EvWrite _ _ _ _ => Some Used
  | Open, EvErase _ => Some Used
  | Open, EvLock => Some Locked
  | Used, EvLock => Some Locked
  | _, _ => None
  end.

Fixpoint bracket_scan (st : bstate) (l : list event) : option bstate :=
  match l with
  | [] => Some st
  | e :: l' =>
      match bracket_step st e with
      | Some st' => bracket_scan st' l'
      | None => None
      end
  end.

Definition well_bracketed (l : list event) : Prop :=
  bracket_scan Locked l = Some Locked.

(** ** Ranges and table checks *)

Definition in_u32 (x : Z) : Prop := 0 <= x < 2 ^ 32.

(** The indices of the table. *)
Definition indices : list Z := map Z.of_nat (seq 0 256).

(** Entries [i] and [j] have different top bytes, or [i] is [j]. *)
Definition tops_differ (i j : Z) : bool :=
  implb (Z.shiftr (table_at i) 24 =? Z.shiftr (table_at j) 24) (i =? j).

(** ** The capability of the STM32G0 ([G0_Operations])

    The HAL is not part of the source: its calls are parameters.  A status is
    [true] for [HAL_OK]. *)

Module G0.

(** The registers [deinit_systick] writes, and the rest of the HAL's state. *)
Record Regs : Type := mkRegs {
  SysTick_CTRL : Z;
  SysTick_LOAD : Z;
  SysTick_VAL : Z;
  SCB_VTOR : Z;
  MSP : Z
}.

Record Dev (H : Type) : Type := mkDev {
  regs : Regs;
  hal : H
}.
Arguments mkDev {H} _ _.
Arguments regs {H} _.
Arguments hal {H} _.

(** [*((uint64_t* )data)]. *)
Definition load64 (m : memory) (a : Z) : Z :=
  load32 m a + Z.shiftl (load32 m (a + 4)) 32.

(** [op.deinit_systick]. *)
Definition deinit_systick {H : Type} (mc : Machine (Dev H))
  : Machine (Dev H) :=
  BootOps.mkMachine (mem mc)
    {| regs := {| SysTick_CTRL := 0;
                  SysTick_LOAD := 0;
                  SysTick_VAL := 0;
                  SCB_VTOR := START_ADDRESS;
                  MSP := load32 (mem mc) START_ADDRESS |};
       hal := hal (dev mc) |}.

Section Write.

Context {D : Type}.

(** [HAL_FLASH_Program(FLASH_TYPEPROGRAM_DOUBLEWORD, address, data) == HAL_OK]. *)
Variable HAL_FLASH_Program : Z -> Z -> Machine D -> bool * Machine D.

(** A programming call: the address, the double word, and whether the call
    passed (the HAL said [HAL_OK] and the first byte read back equal). *)
Definition program_call : Type := (Z * Z * bool)%type.

Definition call_passed (c : program_call) : bool := snd c.
Definition call_target (c : program_call) : Z := fst (fst c).

(** The loop of [op.write]: [i], like [address], is a [uint32_t].  [None] is
    running out of fuel. *)
Fixpoint write_loop (fuel : nat) (address data size i : Z) (mc : Machine D)
         (calls : list program_call)
  : option (bool * Machine D * list program_call) :=
  match fuel with
  | O => None
  | S fuel' =>
      if i <? size then
        let dw := load64 (mem mc) data in
        let (ok, mc') := HAL_FLASH_Program address dw mc in
        if ok then
          if negb (load8 (mem mc') address =? load8 (mem mc') data)
          then Some (false, mc', calls ++ [(address, dw, false)])
          else write_loop fuel' (wrap32 (address + 8)) (data + 8) size
                 (wrap32 (i + 8)) mc' (calls ++ [(address, dw, true)])
        else Some (false, mc', calls ++ [(address, dw, false)])
      else Some (true, mc, calls)
  end.

(** [op.write]. *)
Definition write (fuel : nat) (address data size : Z) (mc : Machine D)
  : option (bool * Machine D * list program_call) :=
  write_loop fuel address data size 0 mc [].

End Write.

(** A HAL double for the witnesses: it is the memory alone.  [program_ok]
    stores the double word; [program_first_byte] stores its first byte and
    clears the other seven. *)
Definition store64 (m : memory) (a v : Z) : memory :=
  store32 (store32 m a (Z.land v 0xFFFFFFFF)) (a + 4) (Z.shiftr v 32).

Definition program_ok (address dw : Z) (mc : Machine unit)
  : bool * Machine unit :=
  (true, BootOps.mkMachine (store64 (mem mc) address dw) tt).

Definition program_first_byte (address dw : Z) (mc : Machine unit)
  : bool * Machine unit :=
  (true, BootOps.mkMachine (store64 (mem mc) address (Z.land dw 0xFF)) tt).

Definition program_fails_at (bad : Z) (address dw : Z) (mc : Machine unit)
  : bool * Machine unit :=
  if address =? bad then (false, mc)
  else (true, BootOps.mkMachine (store64 (mem mc) address dw) tt).

End G0.

(** ** The methods, one call at a time *)

Section Calls.

Context {D : Type}.
Implicit Types (o : BootOperations D) (s : Sys D) (c : call).

Ltac unfold_monad :=
  unfold write_continously, write, erase_app, bind, ret, get_operations,
    get_was_erased, get_write_pointer, set_was_erased, set_write_pointer,
    call_unlock, call_lock, call_write, call_erase_app,
    hw_erase, hw_write, unlocked, locked, with_erased, with_pointer in *.

Lemma erase_app_bound o s :
  m_operations (self s) = Some o ->
  erase_app s =
    (fst (hw_erase o (mach s)),
     {| self := if fst (hw_erase o (mach s))
                then with_erased (self s) else self s;
        mach := snd (hw_erase o (mach s));
        log := log s ++ [EvUnlock; EvErase (fst (hw_erase o (mach s))); EvLock] |}).
Proof.
  intros Ho. destruct s as [[ops e p] mc l]. simpl in Ho. subst ops.
  unfold_monad. simpl.
  destruct (BootOps.erase_app o _) as [r mc'] eqn:E. simpl.
  rewrite <- !app_assoc. simpl.
  destruct r; reflexivity.
Qed.

Lemma do_call_erased o s c :
  m_operations (self s) = Some o ->
  m_was_erased (self s) = true ->
  let a := call_address (self s) c in
  let w := hw_write o a (call_data c) (call_size c) (mach s) in
  do_call c s =
    (fst w,
     {| self := after_call (self s) c (fst w);
        mach := snd w;
        log := log s ++ [EvUnlock;
                         EvWrite a (call_data c) (call_size c) (fst w);
                         EvLock] |}).
Proof.
  intros Ho He. destruct s as [[ops e p] mc l]. simpl in Ho, He. subst ops e.
  destruct c as [start data size | buffer size]; simpl; unfold_monad; simpl;
    destruct (BootOps.write o _ _ _ _) as [r mc'] eqn:E; simpl;
    rewrite <- !app_assoc; simpl; try reflexivity.
  destruct r; reflexivity.
Qed.

Lemma do_call_unerased_fail o s c :
  m_operations (self s) = Some o ->
  m_was_erased (self s) = false ->
  fst (hw_erase o (mach s)) = false ->
  do_call c s =
    (false,
     {| self := self s;
        mach := snd (hw_erase o (mach s));
        log := log s ++ [EvUnlock; EvErase false; EvLock] |}).
Proof.
  intros Ho He Hf. destruct s as [[ops e p] mc l]. simpl in Ho, He, Hf.
  subst ops e. revert Hf.
  destruct c as [start data size | buffer size]; simpl; unfold_monad; simpl;
    destruct (BootOps.erase_app o _) as [r mc'] eqn:E; simpl;
    intros ->; simpl; rewrite <- !app_assoc; reflexivity.
Qed.

Lemma do_call_unerased_ok o s c :
  m_operations (self s) = Some o ->
  m_was_erased (self s) = false ->
  fst (hw_erase o (mach s)) = true ->
  let a := call_address (self s) c in
  let w := hw_write o a (call_data c) (call_size c)
             (snd (hw_erase o (mach s))) in
  do_call c s =
    (fst w,
     {| self := after_call (with_erased (self s)) c (fst w);
        mach := snd w;
        log := log s ++ [EvUnlock; EvErase true; EvLock;
                         EvUnlock;
                         EvWrite a (call_data c) (call_size c) (fst w);
                         EvLock] |}).
Proof.
  intros Ho He Hf. destruct s as [[ops e p] mc l]. simpl in Ho, He, Hf.
  subst ops e. revert Hf.
  destruct c as [start data size | buffer size]; simpl; unfold_monad; simpl;
    destruct (BootOps.erase_app o _) as [r mc'] eqn:E; simpl;
    intros ->; simpl;
    destruct (BootOps.write o _ _ _ _) as [r mc''] eqn:E'; simpl;
    rewrite <- !app_assoc; simpl; try reflexivity.
  destruct r; reflexivity.
Qed.

Lemma do_call_unbound s c :
  m_operations (self s) = None ->
  do_call c s = (false, s).
Proof.
  intros Ho. destruct s as [[ops e p] mc l]. simpl in Ho. subst ops.
  destruct c as [start data size | buffer size]; simpl; unfold_monad; simpl;
    try reflexivity.
  destruct e; reflexivity.
Qed.

End Calls.

(** ** Logs and sequences of calls *)

Lemma erase_events_app (l1 l2 : list event) :
  erase_events (l1 ++ l2) = erase_events l1 ++ erase_events l2.
Proof.
  induction l1 as [|e l1 IH]; simpl; [reflexivity|].
  destruct e; simpl; rewrite IH; reflexivity.
Qed.

Lemma write_events_app (l1 l2 : list event) :
  write_events (l1 ++ l2) = write_events l1 ++ write_events l2.
Proof.
  induction l1 as [|e l1 IH]; simpl; [reflexivity|].
  destruct e; simpl; rewrite IH; reflexivity.
Qed.

Section Runs.

Context {D : Type}.
Implicit Types (o : BootOperations D) (s : Sys D) (c : call).

Lemma run_cons c cs s :
  run (c :: cs) s =
    (fst (do_call c s) :: fst (run cs (snd (do_call c s))),
     snd (run cs (snd (do_call c s)))).
Proof.
  simpl. unfold bind, ret.
  destruct (do_call c s) as [r s1]. simpl.
  destruct (run cs s1) as [rs s2]. reflexivity.
Qed.

Lemma after_call_operations (m : Manager D) c r :
  m_operations (after_call m c r) = m_operations m.
Proof. destruct c; simpl; [reflexivity|]. destruct r; reflexivity. Qed.

Lemma after_call_was_erased (m : Manager D) c r :
  m_was_erased (after_call m c r) = m_was_erased m.
Proof. destruct c; simpl; [reflexivity|]. destruct r; reflexivity. Qed.

(** A call never rebinds the capability. *)
Lemma do_call_operations c s :
  m_operations (self (snd (do_call c s))) = m_operations (self s).
Proof.
  destruct (m_operations (self s)) as [o|] eqn:Ho.
  - destruct (m_was_erased (self s)) eqn:He.
    + rewrite (do_call_erased o s c Ho He). simpl.
      rewrite after_call_operations. exact Ho.
    + destruct (fst (hw_erase o (mach s))) eqn:Hf.
      * rewrite (do_call_unerased_ok o s c Ho He Hf). simpl.
        rewrite after_call_operations. exact Ho.
      * rewrite (do_call_unerased_fail o s c Ho He Hf). exact Ho.
  - rewrite (do_call_unbound s c Ho). exact Ho.
Qed.

(** Once the flag is set, no call erases, the flag stays set, and each call
    returns what its capability write returned. *)
Lemma run_erased o cs : forall s,
  m_operations (self s) = Some o ->
  m_was_erased (self s) = true ->
  m_was_erased (self (snd (run cs s))) = true /\
  erase_events (log (snd (run cs s))) = erase_events (log s) /\
  write_results (log (snd (run cs s))) =
    write_results (log s) ++ fst (run cs s).
Proof.
  induction cs as [|c cs IH]; intros s Ho He.
  - simpl. rewrite app_nil_r. auto.
  - rewrite run_cons. simpl.
    pose proof (do_call_operations c s) as Hops. rewrite Ho in Hops.
    pose proof (do_call_erased o s c Ho He) as Hc. simpl in Hc.
    destruct (IH (snd (do_call c s)) Hops) as (H1 & H2 & H3).
    { rewrite Hc. simpl. rewrite after_call_was_erased. exact He. }
    split; [exact H1|]. split.
    + rewrite H2, Hc. simpl. rewrite erase_events_app. simpl.
      apply app_nil_r.
    + rewrite H3. rewrite Hc at 1. simpl.
      unfold write_results. rewrite write_events_app, map_app. simpl.
      rewrite <- app_assoc. simpl. rewrite Hc. reflexivity.
Qed.


(** From an unerased manager the erase results are failures, ended by at
    most one success. *)
Lemma run_unerased o cs : forall s,
  m_operations (self s) = Some o ->
  m_was_erased (self s) = false ->
  exists k,
    erase_events (log (snd (run cs s))) =
      erase_events (log s) ++ repeat false k \/
    erase_events (log (snd (run cs s))) =
      erase_events (log s) ++ repeat false k ++ [true].
Proof.
  induction cs as [|c cs IH]; intros s Ho He.
  - exists 0%nat. left. simpl. rewrite app_nil_r. reflexivity.
  - rewrite run_cons. simpl.
    pose proof (do_call_operations c s) as Hops. rewrite Ho in Hops.
    destruct (fst (hw_erase o (mach s))) eqn:Hf.
    + pose proof (do_call_unerased_ok o s c Ho He Hf) as Hc. simpl in Hc.
      destruct (run_erased o cs (snd (do_call c s)) Hops) as (_ & H2 & _).
      { rewrite Hc. simpl. rewrite after_call_was_erased. reflexivity. }
      exists 0%nat. right. rewrite H2, Hc. simpl.
      rewrite erase_events_app. reflexivity.
    + pose proof (do_call_unerased_fail o s c Ho He Hf) as Hc.
      destruct (IH (snd (do_call c s)) Hops) as [k Hk].
      { rewrite Hc. exact He. }
      exists (S k).
      rewrite Hc in Hk at 2 4. simpl in Hk.
      rewrite erase_events_app in Hk. simpl in Hk.
      rewrite <- !app_assoc in Hk. exact Hk.
Qed.

End Runs.

(** ** Erase before the first write *)

(** C1.  With a capability bound, a [write] or [write_continously] call on a
    manager whose erase flag is false (as it is after construction) first
    runs [erase_app], bracketed by unlock and lock.  If the erase fails the
    call returns [false], issues no capability write, leaves the manager's
    fields as they were (the flag stays false), and the next call therefore
    erases again.  If the erase succeeds the flag becomes true.  With the
    flag true, a call makes no erase, issues exactly one bracketed capability
    write and returns its result, and this stays so for every later call. *)
Theorem write_erases_before_first_write :
  forall (D : Type) (o : BootOperations D) (s : Sys D) (c : call),
    m_operations (self s) = Some o ->
    let e := hw_erase o (mach s) in
    let a := call_address (self s) c in
    let s' := snd (do_call c s) in
    m_was_erased (STM32BootManager (Some o)) = false /\
    (m_was_erased (self s) = false ->
       (exists l, log s' = log s ++ [EvUnlock; EvErase (fst e); EvLock] ++ l) /\
       (fst e = false ->
          fst (do_call c s) = false /\
          log s' = log s ++ [EvUnlock; EvErase false; EvLock] /\
          write_events (log s') = write_events (log s) /\
          self s' = self s /\
          forall c2, exists r l,
            log (snd (do_call c2 s')) =
              log s' ++ [EvUnlock; EvErase r; EvLock] ++ l) /\
       (fst e = true ->
          m_was_erased (self s') = true /\
          fst (do_call c s) =
            fst (hw_write o a (call_data c) (call_size c) (snd e)) /\
          log s' = log s ++ [EvUnlock; EvErase true; EvLock;
                             EvUnlock;
                             EvWrite a (call_data c) (call_size c)
                               (fst (do_call c s));
                             EvLock])) /\
    (m_was_erased (self s) = true ->
       fst (do_call c s) =
         fst (hw_write o a (call_data c) (call_size c) (mach s)) /\
       log s' = log s ++ [EvUnlock;
                          EvWrite a (call_data c) (call_size c)
                            (fst (do_call c s));
                          EvLock] /\
       forall cs,
         m_was_erased (self (snd (run cs s'))) = true /\
         erase_events (log (snd (run cs s'))) = erase_events (log s) /\
         write_results (log (snd (run cs s'))) =
           write_results (log s') ++ fst (run cs s')).
Proof.
  intros D o s c Ho e a s'. split; [reflexivity|]. split.
  - intros He. split; [|split].
    + subst s'. destruct (fst e) eqn:Hf; subst e.
      * rewrite (do_call_unerased_ok o s c Ho He Hf). simpl. eauto.
      * rewrite (do_call_unerased_fail o s c Ho He Hf). simpl.
        exists []. reflexivity.
    + intros Hf. subst e.
      pose proof (do_call_unerased_fail o s c Ho He Hf) as Hc.
      subst s'. rewrite Hc. simpl.
      repeat split.
      * rewrite write_events_app. simpl. apply app_nil_r.
      * intros c2.
        set (s1 := {| self := self s; mach := snd (hw_erase o (mach s));
                      log := log s ++ [EvUnlock; EvErase false; EvLock] |}).
        destruct (fst (hw_erase o (mach s1))) eqn:Hf2.
        -- rewrite (do_call_unerased_ok o s1 c2 Ho He Hf2). simpl. eauto.
        -- rewrite (do_call_unerased_fail o s1 c2 Ho He Hf2). simpl.
           exists false, []. reflexivity.
    + intros Hf. subst e.
      pose proof (do_call_unerased_ok o s c Ho He Hf) as Hc. simpl in Hc.
      subst s'. rewrite Hc. simpl. rewrite after_call_was_erased.
      repeat split.
  - intros He.
    pose proof (do_call_erased o s c Ho He) as Hc. simpl in Hc.
    pose proof (do_call_operations c s) as Hops. rewrite Ho in Hops.
    assert (He' : m_was_erased (self s') = true).
    { subst s'. rewrite Hc. simpl. rewrite after_call_was_erased. exact He. }
    split; [|split].
    + rewrite Hc. reflexivity.
    + subst s'. rewrite Hc. reflexivity.
    + intros cs.
      destruct (run_erased o cs s' Hops He') as (H1 & H2 & H3).
      split; [exact H1|]. split; [|exact H3].
      rewrite H2. subst s'. rewrite Hc. simpl.
      rewrite erase_events_app. simpl. apply app_nil_r.
Qed.

(** C1 on the double: the first erase fails, the second succeeds. *)
Lemma write_erases_before_first_write_witness :
  let s := fresh (Some Double.ops)
             (Double.machine (fun _ => x00) [false; true] []) in
  m_operations (self s) = Some Double.ops /\
  fst (do_call (CWriteCont 0x20000000 8) s) = false /\
  erase_events
    (log (snd (run [CWriteCont 0x20000000 8; CWriteCont 0x20000000 8;
                    CWrite START_ADDRESS 0x20000000 8] s)))
    = [false; true].
Proof.
  intros s.
  pose proof (write_erases_before_first_write Double.Dev Double.ops s
                (CWriteCont 0x20000000 8) eq_refl) as H.
  simpl in H. destruct H as (_ & H & _).
  destruct (H eq_refl) as (_ & Hfail & _).
  destruct (Hfail eq_refl) as (Hr & _).
  split; [reflexivity|]. split; [exact Hr|]. reflexivity.
Defined.

(** ** How often the erase runs *)






(** ** The write cursor *)

Lemma sum_app (l1 l2 : list Z) : sum (l1 ++ l2) = sum l1 + sum l2.
Proof.
  unfold sum. induction l1 as [|x l1 IH]; simpl; [reflexivity|].
  rewrite IH. lia.
Qed.

Lemma sum_firstn_bounds (l : list Z) :
  Forall (fun x => 0 <= x) l ->
  forall n, 0 <= sum (firstn n l) <= sum l.
Proof.
  induction 1 as [|x l Hx Hl IH]; intros n.
  - rewrite firstn_nil. simpl. lia.
  - destruct n as [|n]; simpl.
    + specialize (IH 0%nat). simpl in IH. unfold sum in *. simpl. lia.
    + specialize (IH n). unfold sum in *. simpl. lia.
Qed.

Lemma wrap32_add_l (x y : Z) : wrap32 (wrap32 x + y) = wrap32 (x + y).
Proof. unfold wrap32. apply Zplus_mod_idemp_l. Qed.

Section Cursor.

Context {D : Type}.
Implicit Types (o : BootOperations D) (s : Sys D).

(** What one [write_continously] call adds to the log and does to the
    cursor. *)
Lemma write_continously_step s buffer size :
  let r := fst (write_continously buffer size s) in
  let s' := snd (write_continously buffer size s) in
  (r = false /\
   write_events (log s') = write_events (log s) /\
   m_write_pointer (self s') = m_write_pointer (self s))
  \/
  (write_events (log s') =
     write_events (log s) ++ [(m_write_pointer (self s), size, r)] /\
   m_write_pointer (self s') =
     if r then wrap32 (m_write_pointer (self s) + size)
     else m_write_pointer (self s)).
Proof.
  change (write_continously buffer size) with
    (@do_call D (CWriteCont buffer size)).
  set (c := CWriteCont buffer size).
  destruct (m_operations (self s)) as [o|] eqn:Ho.
  - destruct (m_was_erased (self s)) eqn:He.
    + right. rewrite (do_call_erased o s c Ho He). simpl.
      rewrite write_events_app. simpl. split; [reflexivity|].
      destruct (fst (hw_write _ _ _ _ _)); reflexivity.
    + destruct (fst (hw_erase o (mach s))) eqn:Hf.
      * right. rewrite (do_call_unerased_ok o s c Ho He Hf). simpl.
        rewrite write_events_app. simpl. split; [reflexivity|].
        destruct (fst (hw_write _ _ _ _ _)); reflexivity.
      * left. rewrite (do_call_unerased_fail o s c Ho He Hf). simpl.
        rewrite write_events_app. simpl. rewrite app_nil_r. auto.
  - left. rewrite (do_call_unbound s c Ho). auto.
Qed.

Lemma cursor_inv_fresh (ops : option (BootOperations D)) (mc : Machine D) :
  cursor_inv (fresh ops mc).
Proof.
  intros _. split; [|reflexivity].
  intros n Hn. simpl in Hn. lia.
Qed.

Lemma cursor_inv_step s buffer size :
  cursor_inv s -> cursor_inv (snd (write_continously buffer size s)).
Proof.
  intros Hinv.
  destruct (write_continously_step s buffer size) as [(_ & Hw & Hp)|(Hw & Hp)];
    unfold cursor_inv, addresses_follow_sizes, write_results,
      write_addresses, write_sizes in *; rewrite Hw.
  - rewrite Hp. exact Hinv.
  - rewrite !map_app, forallb_app. cbn [map forallb fst snd].
    set (r := fst (write_continously buffer size s)) in *.
    intros Hall. apply andb_prop in Hall as [Hall Hr].
    destruct r; [|discriminate].
    destruct (Hinv Hall) as [Hfollow Hptr]. split.
    + intros n Hn. rewrite length_app in Hn. cbn [List.length] in Hn.
      assert (Hlen1 : List.length
                (map (fun w => fst (fst w)) (write_events (log s))) =
              List.length (write_events (log s))) by apply length_map.
      assert (Hlen2 : List.length
                (map (fun w => snd (fst w)) (write_events (log s))) =
              List.length (write_events (log s))) by apply length_map.
      destruct (Nat.eq_dec n (List.length (write_events (log s)))) as [->|Hne].
      * rewrite app_nth2 by lia. rewrite Hlen1, Nat.sub_diag.
        cbn [nth fst snd].
        rewrite firstn_app, firstn_all2 by lia.
        rewrite Hlen2, Nat.sub_diag. cbn [firstn]. rewrite app_nil_r.
        exact Hptr.
      * rewrite app_nth1 by lia.
        rewrite firstn_app.
        replace (n - _)%nat with 0%nat by lia. cbn [firstn].
        rewrite app_nil_r.
        apply Hfollow. lia.
    + rewrite Hp, Hptr, wrap32_add_l, sum_app.
      f_equal. unfold sum. cbn [fold_right fst snd]. lia.
Qed.

Lemma cursor_inv_run bs : forall s,
  cursor_inv s -> cursor_inv (snd (run (writes_call bs) s)).
Proof.
  induction bs as [|[b n] bs IH]; intros s Hinv; [exact Hinv|].
  unfold writes_call in *. simpl map. rewrite run_cons. simpl snd.
  apply IH. apply cursor_inv_step. exact Hinv.
Qed.

(** When every call returns [true], every call has written, in order. *)
Lemma run_all_true_sizes bs : forall s,
  forallb id (fst (run (writes_call bs) s)) = true ->
  write_sizes (log (snd (run (writes_call bs) s))) =
    write_sizes (log s) ++ map snd bs /\
  forallb id (write_results (log (snd (run (writes_call bs) s)))) =
    forallb id (write_results (log s)).
Proof.
  induction bs as [|[b n] bs IH]; intros s Hall.
  - simpl. rewrite app_nil_r. auto.
  - unfold writes_call in *. simpl map in *. rewrite run_cons in *.
    simpl fst in *. simpl snd in *.
    change (do_call (CWriteCont b n)) with (@write_continously D b n) in *.
    cbn [forallb] in Hall.
    apply andb_prop in Hall as [Hr Hall]. unfold id in Hr at 1.
    destruct (IH _ Hall) as [IH1 IH2].
    destruct (write_continously_step s b n) as [(Hf & _)|(Hw & _)];
      [congruence|].
    rewrite Hr in Hw. split.
    + rewrite IH1. unfold write_sizes. rewrite Hw, map_app, <- app_assoc.
      reflexivity.
    + rewrite IH2. unfold write_results.
      rewrite Hw, map_app, forallb_app. cbn. apply andb_true_r.
Qed.

End Cursor.

Lemma wrap32_small (x : Z) : 0 <= x < 2 ^ 32 -> wrap32 x = x.
Proof. intros H. unfold wrap32. apply Z.mod_small. exact H. Qed.

(** C2.  The cursor of a fresh manager is [START_ADDRESS].  When every one
    of a sequence of [write_continously] calls with lengths [s1 ... sn]
    succeeds, each call issues one capability write, and the address of the
    n-th is [START_ADDRESS + s1 + ... + s(n-1)], the sum being the 32-bit sum
    of the [uint32_t] cursor (and the plain sum as long as it fits 32 bits).
    More generally, whenever all capability writes of a run succeed, their
    addresses are the running sums of their lengths.  A call that returns
    [false] leaves the cursor as it was. *)
Theorem write_cursor_sequencing :
  forall (D : Type) (ops : option (BootOperations D)) (mc : Machine D)
         (bs : list (Z * Z)),
    let s0 := fresh ops mc in
    let sizes := map snd bs in
    let rs := fst (run (writes_call bs) s0) in
    let l := log (snd (run (writes_call bs) s0)) in
    m_write_pointer (self s0) = START_ADDRESS /\
    (forallb id rs = true ->
       write_sizes l = sizes /\
       (forall n, (n < List.length bs)%nat ->
          nth n (write_addresses l) 0 =
            wrap32 (START_ADDRESS + sum (firstn n sizes))) /\
       (Forall (fun x => 0 <= x) sizes ->
        START_ADDRESS + sum sizes < 2 ^ 32 ->
        forall n, (n < List.length bs)%nat ->
          nth n (write_addresses l) 0 =
            START_ADDRESS + sum (firstn n sizes))) /\
    (forallb id (write_results l) = true -> addresses_follow_sizes l) /\
    (forall (s : Sys D) (buffer size : Z),
       fst (write_continously buffer size s) = false ->
       m_write_pointer (self (snd (write_continously buffer size s))) =
         m_write_pointer (self s)).
Proof.
  intros D ops mc bs s0 sizes rs l.
  pose proof (cursor_inv_run bs s0 (cursor_inv_fresh ops mc)) as Hinv.
  fold l in Hinv.
  split; [reflexivity|]. split; [|split].
  - intros Hall.
    destruct (run_all_true_sizes bs s0 Hall) as [Hsz Hres].
    change (write_sizes l = sizes) in Hsz.
    change (forallb id (write_results l) = true) in Hres.
    destruct (Hinv Hres) as [Hfollow _].
    assert (Hlen : List.length (write_events l) = List.length bs).
    { pose proof (f_equal (@List.length Z) Hsz) as E.
      unfold write_sizes, sizes in E. rewrite !length_map in E. exact E. }
    assert (Haddr : forall n, (n < List.length bs)%nat ->
              nth n (write_addresses l) 0 =
                wrap32 (START_ADDRESS + sum (firstn n sizes))).
    { intros n Hn. rewrite <- Hsz. apply Hfollow.
      change (n < List.length (write_events l))%nat.
      rewrite Hlen. exact Hn. }
    split; [exact Hsz|]. split; [exact Haddr|].
    intros Hpos Hfit n Hn. rewrite (Haddr n Hn).
    apply wrap32_small.
    pose proof (sum_firstn_bounds sizes Hpos n) as Hb.
    assert (0 <= START_ADDRESS) by (unfold START_ADDRESS; lia).
    lia.
  - intros Hres. exact (proj1 (Hinv Hres)).
  - intros s buffer size Hr.
    destruct (write_continously_step s buffer size) as [(_ & _ & Hp)|(_ & Hp)].
    + exact Hp.
    + rewrite Hr in Hp. exact Hp.
Qed.

(** C2 on the double: three successful calls of 4, 8 and 4 bytes go to
    [START_ADDRESS], [START_ADDRESS + 4] and [START_ADDRESS + 12]. *)
Lemma write_cursor_sequencing_witness :
  let bs := [(0x20000000, 4); (0x20000004, 8); (0x2000000C, 4)] in
  let s0 := fresh (Some Double.ops) (Double.machine (fun _ => x00) [] []) in
  let l := log (snd (run (writes_call bs) s0)) in
  forallb id (fst (run (writes_call bs) s0)) = true /\
  nth 2 (write_addresses l) 0 = START_ADDRESS + 12 /\
  erase_events l = [true].
Proof.
  intros bs s0 l.
  assert (Hall : forallb id (fst (run (writes_call bs) s0)) = true)
    by (vm_compute; reflexivity).
  destruct (write_cursor_sequencing Double.Dev (Some Double.ops)
              (Double.machine (fun _ => x00) [] []) bs)
    as (_ & H & _).
  destruct (H Hall) as (_ & _ & Hexact).
  split; [exact Hall|]. split.
  - assert (Hpos : Forall (fun x => 0 <= x) (map snd bs))
      by (repeat constructor; discriminate).
    assert (Hfit : START_ADDRESS + sum (map snd bs) < 2 ^ 32)
      by (vm_compute; reflexivity).
    assert (Hn : (2 < List.length bs)%nat) by (cbn; lia).
    exact (Hexact Hpos Hfit 2%nat Hn).
  - vm_compute. reflexivity.
Defined.

(** ** No bound on the cursor *)

Lemma hw_erase_fst {D : Type} (o : BootOperations D) (mc : Machine D) :
  fst (hw_erase o mc) = fst (BootOps.erase_app o (unlocked o mc)).
Proof. unfold hw_erase. destruct (BootOps.erase_app o _). reflexivity. Qed.

Lemma hw_write_fst {D : Type} (o : BootOperations D) (a d n : Z)
      (mc : Machine D) :
  fst (hw_write o a d n mc) = fst (BootOps.write o a d n (unlocked o mc)).
Proof. unfold hw_write. destruct (BootOps.write o _ _ _ _). reflexivity. Qed.

(** C6.  [write_continously] compares neither the cursor nor the cursor plus
    the length with [END_ADDRESS]: on a capability whose erase and write
    succeed, every call succeeds and moves the cursor on by the length.  So
    one successful call of [END_ADDRESS - START_ADDRESS + 4] bytes leaves the
    cursor beyond [END_ADDRESS], and the next successful call hands that
    address to the capability write. *)
Theorem write_continously_overruns_region :
  forall (D : Type) (o : BootOperations D) (mc : Machine D) (buffer : Z),
    (forall m, fst (BootOps.erase_app o m) = true) ->
    (forall a d n m, fst (BootOps.write o a d n m) = true) ->
    (forall (s : Sys D) (b n : Z),
       m_operations (self s) = Some o ->
       fst (write_continously b n s) = true /\
       write_events (log (snd (write_continously b n s))) =
         write_events (log s) ++ [(m_write_pointer (self s), n, true)] /\
       m_write_pointer (self (snd (write_continously b n s))) =
         wrap32 (m_write_pointer (self s) + n)) /\
    exists bs : list (Z * Z),
      let s1 := snd (run (writes_call bs) (fresh (Some o) mc)) in
      let s2 := snd (write_continously buffer 4 s1) in
      forallb id (fst (run (writes_call bs) (fresh (Some o) mc))) = true /\
      forallb id (write_results (log s1)) = true /\
      END_ADDRESS < m_write_pointer (self s1) /\
      fst (write_continously buffer 4 s1) = true /\
      exists a,
        END_ADDRESS <= a /\
        write_events (log s2) = write_events (log s1) ++ [(a, 4, true)].
Proof.
  intros D o mc buffer Herase Hwrite.
  assert (Hstep : forall (s : Sys D) (b n : Z),
    m_operations (self s) = Some o ->
    fst (write_continously b n s) = true /\
    write_events (log (snd (write_continously b n s))) =
      write_events (log s) ++ [(m_write_pointer (self s), n, true)] /\
    m_write_pointer (self (snd (write_continously b n s))) =
      wrap32 (m_write_pointer (self s) + n)).
  { intros s b n Ho.
    change (write_continously b n) with (@do_call D (CWriteCont b n)).
    destruct (m_was_erased (self s)) eqn:He.
    - rewrite (do_call_erased o s (CWriteCont b n) Ho He).
      cbn [fst snd log self after_call call_address call_data call_size].
      rewrite hw_write_fst, Hwrite, write_events_app.
      cbn [write_events with_pointer m_write_pointer].
      repeat split.
    - assert (Hf : fst (hw_erase o (mach s)) = true)
        by (rewrite hw_erase_fst; apply Herase).
      rewrite (do_call_unerased_ok o s (CWriteCont b n) Ho He Hf).
      cbn [fst snd log self after_call call_address call_data call_size].
      rewrite hw_write_fst, Hwrite, write_events_app.
      cbn [write_events with_pointer with_erased m_write_pointer].
      repeat split. }
  split; [exact Hstep|].
  exists [(buffer, END_ADDRESS - START_ADDRESS + 4)].
  cbn [writes_call map fst snd]. rewrite run_cons.
  cbn [run ret fst snd forallb].
  change (do_call (CWriteCont buffer (END_ADDRESS - START_ADDRESS + 4)))
    with (@write_continously D buffer (END_ADDRESS - START_ADDRESS + 4)).
  set (s0 := fresh (Some o) mc).
  destruct (Hstep s0 buffer (END_ADDRESS - START_ADDRESS + 4) eq_refl)
    as (Hr1 & Hw1 & Hp1).
  set (s1 := snd (write_continously buffer (END_ADDRESS - START_ADDRESS + 4) s0))
    in *.
  assert (Ho1 : m_operations (self s1) = Some o).
  { subst s1.
    change (write_continously buffer (END_ADDRESS - START_ADDRESS + 4))
      with (@do_call D (CWriteCont buffer (END_ADDRESS - START_ADDRESS + 4))).
    rewrite do_call_operations. reflexivity. }
  destruct (Hstep s1 buffer 4 Ho1) as (Hr2 & Hw2 & Hp2).
  assert (Hcur : m_write_pointer (self s1) = END_ADDRESS + 4).
  { rewrite Hp1. vm_compute. reflexivity. }
  split; [rewrite Hr1; reflexivity|].
  split; [unfold write_results; rewrite Hw1; reflexivity|].
  split; [rewrite Hcur; lia|].
  split; [exact Hr2|].
  exists (END_ADDRESS + 4). split; [lia|].
  rewrite Hw2, Hcur. reflexivity.
Qed.

(** C6 on the double that never fails. *)
Lemma write_continously_overruns_region_witness :
  exists bs : list (Z * Z),
    let s1 := snd (run (writes_call bs)
                     (fresh (Some Double.ideal)
                        (Double.machine (fun _ => x00) [] []))) in
    END_ADDRESS < m_write_pointer (self s1).
Proof.
  destruct (write_continously_overruns_region Double.Dev Double.ideal
              (Double.machine (fun _ => x00) [] []) 0x20000000)
    as (_ & bs & H).
  - intros m. reflexivity.
  - intros a d n m. reflexivity.
  - exists bs. exact (proj1 (proj2 (proj2 H))).
Defined.

(** ** No capability bound *)

(** C5.  When [m_operations] is null every public operation comes back at
    once: [read], [write] and [write_continously] return [false],
    [calculate_crc] returns [0], [jump_to_app] returns to its caller without
    transferring control; the manager's fields (cursor and erase flag), the
    machine and the log of capability calls are what they were. *)
Theorem unbound_capability_is_safe :
  forall (D : Type) (s : Sys D),
    m_operations (self s) = None ->
    (forall fuel address dst size,
       read fuel address dst size s = Some (false, s)) /\
    (forall start data size, write start data size s = (false, s)) /\
    (forall buffer size, write_continously buffer size s = (false, s)) /\
    calculate_crc s = (0, s) /\
    jump_to_app s = Returned s.
Proof.
  intros D s Ho. repeat split.
  - intros fuel address dst size. unfold read. rewrite Ho. reflexivity.
  - intros start data size.
    exact (do_call_unbound s (CWrite start data size) Ho).
  - intros buffer size.
    exact (do_call_unbound s (CWriteCont buffer size) Ho).
  - unfold calculate_crc, bind, get_operations, ret. rewrite Ho. reflexivity.
  - unfold jump_to_app. rewrite Ho. reflexivity.
Qed.

(** C5 on a manager built with the default argument, and on one that has been
    erased before its capability was taken away. *)
Lemma unbound_capability_is_safe_witness :
  let s := fresh None (Double.machine (fun _ => x00) [] []) in
  let s' := {| self := {| m_operations := None; m_was_erased := true;
                          m_write_pointer := START_ADDRESS + 16 |};
               mach := Double.machine (fun _ => x00) [] [];
               log := [EvUnlock; EvErase true; EvLock] |} in
  write_continously 0x20000000 16 s = (false, s) /\
  read 0 START_ADDRESS 0x20000000 16 s' = Some (false, s') /\
  jump_to_app s' = Returned s'.
Proof.
  intros s s'.
  pose proof (unbound_capability_is_safe Double.Dev s eq_refl) as H.
  pose proof (unbound_capability_is_safe Double.Dev s' eq_refl) as H'.
  split; [apply H|]. split; [apply H'|apply H'].
Defined.

(** ** The jump *)

(** C7.  With a capability bound, [jump_to_app] calls [deinit_peripherals],
    reads the 32-bit word at [START_ADDRESS + 4] from the memory as that call
    left it, calls [deinit_systick], and transfers control to the word read:
    the two calls are made once each, in that order, the call never comes back
    to its caller, and no property of the word is tested. *)
Theorem jump_to_app_sequence :
  forall (D : Type) (o : BootOperations D) (s : Sys D),
    m_operations (self s) = Some o ->
    let mc1 := BootOps.deinit_peripherals o (mach s) in
    let entry := load32 (mem mc1) (START_ADDRESS + 4) in
    let mc2 := BootOps.deinit_systick o mc1 in
    jump_to_app s =
      Transferred entry
        {| self := self s; mach := mc2;
           log := log s ++ [EvDeinitPeripherals; EvDeinitSystick] |} /\
    (forall s', jump_to_app s <> Returned s').
Proof.
  intros D o s Ho mc1 entry mc2.
  assert (H : jump_to_app s =
                Transferred entry
                  {| self := self s; mach := mc2;
                     log := log s ++ [EvDeinitPeripherals; EvDeinitSystick] |}).
  { unfold jump_to_app, call_deinit_peripherals, call_deinit_systick.
    rewrite Ho. cbn [mach log self]. rewrite <- app_assoc. reflexivity. }
  split; [exact H|].
  intros s' E. rewrite H in E. discriminate.
Qed.

(** C7 on the double, with a vector table whose second word is
    [0x08006101]; and with an erased flash, where the word is [0xFFFFFFFF]
    and the jump is made all the same. *)
Lemma jump_to_app_sequence_witness :
  let vt := [x00; x50; x00; x20; x01; x61; x00; x08] in
  let s := fresh (Some Double.ops)
             (Double.machine (Double.mem_with START_ADDRESS vt) [] []) in
  let s' := fresh (Some Double.ops)
              (Double.machine (fun _ => xff) [] []) in
  (exists s1, jump_to_app s = Transferred 0x08006101 s1) /\
  (exists s1, jump_to_app s' = Transferred 0xFFFFFFFF s1).
Proof.
  intros vt s s'.
  destruct (jump_to_app_sequence Double.Dev Double.ops s eq_refl) as [H _].
  destruct (jump_to_app_sequence Double.Dev Double.ops s' eq_refl) as [H' _].
  split; eexists; [exact H|exact H'].
Defined.

(** ** The checksum *)

(** The scan reads the bytes from [dp] to [dp + len] and nothing else. *)
Lemma crc_loop_ext (m1 m2 : memory) (len : nat) : forall dp crc,
  (forall a, dp <= a < dp + Z.of_nat len -> m1 a = m2 a) ->
  crc_loop len m1 dp crc = crc_loop len m2 dp crc.
Proof.
  induction len as [|len IH]; intros dp crc Hagree; [reflexivity|].
  cbn [crc_loop]. unfold load8.
  rewrite (Hagree dp) by lia.
  apply IH. intros a Ha. apply Hagree. lia.
Qed.

(** The number of bytes scanned. *)
Lemma crc_len :
  wrap32 ((END_ADDRESS - START_ADDRESS) - METADATA_SIZE) =
    END_ADDRESS - METADATA_SIZE - START_ADDRESS.
Proof. vm_compute. reflexivity. Qed.

Lemma calculate_crc_bound {D : Type} (o : BootOperations D) (s : Sys D) :
  m_operations (self s) = Some o ->
  calculate_crc s =
    (not32 (crc_loop
              (Z.to_nat (END_ADDRESS - METADATA_SIZE - START_ADDRESS))
              (mem (mach s)) START_ADDRESS (not32 0)),
     {| self := self s;
        mach := locked o (unlocked o (mach s));
        log := log s ++ [EvUnlock; EvLock] |}).
Proof.
  intros Ho.
  unfold calculate_crc, bind, get_operations, ret, call_unlock, call_lock,
    locked, unlocked.
  rewrite Ho. cbn [mach log self mem dev]. rewrite crc_len, <- app_assoc.
  reflexivity.
Qed.

(** C3.  The table is built from the polynomial [0xEDB88320] (256 entries,
    the standard ones), the accumulator starts at the complement of zero, each
    byte is folded by [crc_step], and the complement of the accumulator after
    the nine ASCII bytes [123456789] is [0xCBF43926].  [calculate_crc] is
    this computation: with a capability bound its value is the complement of
    the fold, seeded with the complement of zero, of the bytes from
    [START_ADDRESS] to [END_ADDRESS - METADATA_SIZE]; and on an erased flash
    whose scanned range ends in four bytes that bring the accumulator back to
    all ones and then the nine bytes [123456789], it returns [0xCBF43926]. *)
Theorem crc32_check_value :
  CRC32_POLYNOMIALL = 0xEDB88320 /\
  List.length table = 256%nat /\
  table_at 0 = 0 /\
  table_at 1 = 0x77073096 /\
  table_at 128 = CRC32_POLYNOMIALL /\
  table_at 255 = 0x2D02EF8D /\
  not32 0 = 0xFFFFFFFF /\
  (forall crc b,
     crc_step crc b =
       Z.lxor (table_at (Z.land (Z.lxor crc b) 0xFF)) (Z.shiftr crc 8)) /\
  not32 (crc_loop 9
           (Double.mem_with START_ADDRESS (list_byte_of_string "123456789"))
           START_ADDRESS (not32 0)) = 0xCBF43926 /\
  (forall (D : Type) (o : BootOperations D) (s : Sys D),
     m_operations (self s) = Some o ->
     calculate_crc s =
       (not32 (crc_loop
                 (Z.to_nat (END_ADDRESS - METADATA_SIZE - START_ADDRESS))
                 (mem (mach s)) START_ADDRESS (not32 0)),
        {| self := self s;
           mach := locked o (unlocked o (mach s));
           log := log s ++ [EvUnlock; EvLock] |})) /\
  crc_loop (Z.to_nat (END_ADDRESS - METADATA_SIZE - START_ADDRESS - 9))
    (Double.mem_with (END_ADDRESS - METADATA_SIZE - 13)
       ([x8a; x66; xcb; xd7] ++ list_byte_of_string "123456789"))
    START_ADDRESS (not32 0) = not32 0 /\
  fst (calculate_crc
         (fresh (Some Double.ideal)
            (Double.machine
               (Double.mem_with (END_ADDRESS - METADATA_SIZE - 13)
                  ([x8a; x66; xcb; xd7] ++ list_byte_of_string "123456789"))
               [] []))) = 0xCBF43926.
Proof.
  split; [reflexivity|]. split; [reflexivity|].
  split; [vm_compute; reflexivity|]. split; [vm_compute; reflexivity|].
  split; [vm_compute; reflexivity|]. split; [vm_compute; reflexivity|].
  split; [vm_compute; reflexivity|]. split; [reflexivity|].
  split; [vm_compute; reflexivity|].
  split; [intros D o s Ho; exact (calculate_crc_bound o s Ho)|].
  split; vm_compute; reflexivity.
Qed.

(** C3 on the double: the value of [calculate_crc] is the complemented fold
    of the scanned bytes. *)
Lemma crc32_check_value_witness :
  let s := fresh (Some Double.ideal)
             (Double.machine
                (Double.mem_with (END_ADDRESS - METADATA_SIZE - 13)
                   ([x8a; x66; xcb; xd7] ++ list_byte_of_string "123456789"))
                [] []) in
  m_operations (self s) = Some Double.ideal /\
  log (snd (calculate_crc s)) = [EvUnlock; EvLock] /\
  fst (calculate_crc s) = 0xCBF43926.
Proof.
  intros s.
  destruct crc32_check_value
    as (_ & _ & _ & _ & _ & _ & _ & _ & _ & Hbound & _ & Hvalue).
  split; [reflexivity|]. split; [|exact Hvalue].
  rewrite (Hbound Double.Dev Double.ideal s eq_refl). reflexivity.
Defined.

(** C4.  The value of [calculate_crc] is a function of the bytes from
    [START_ADDRESS] up to, not including, [END_ADDRESS - METADATA_SIZE]: two
    machines whose memories agree there give the same value, whatever the
    last [METADATA_SIZE] bytes of the region (or any other byte) hold. *)
Theorem calculate_crc_ignores_metadata :
  forall (D : Type) (m : Manager D) (mc1 mc2 : Machine D)
         (l1 l2 : list event),
    (forall a, START_ADDRESS <= a < END_ADDRESS - METADATA_SIZE ->
               mem mc1 a = mem mc2 a) ->
    fst (calculate_crc {| self := m; mach := mc1; log := l1 |}) =
    fst (calculate_crc {| self := m; mach := mc2; log := l2 |}).
Proof.
  intros D m mc1 mc2 l1 l2 Hagree.
  destruct (m_operations m) as [o|] eqn:Ho.
  - rewrite !(calculate_crc_bound o) by exact Ho.
    cbn [fst mach].
    assert (Hlen : Z.of_nat
                     (Z.to_nat (END_ADDRESS - METADATA_SIZE - START_ADDRESS)) =
                   END_ADDRESS - METADATA_SIZE - START_ADDRESS)
      by (apply Z2Nat.id; vm_compute; discriminate).
    revert Hlen.
    generalize (Z.to_nat (END_ADDRESS - METADATA_SIZE - START_ADDRESS)).
    intros n Hlen.
    rewrite (crc_loop_ext (mem mc1) (mem mc2) n); [reflexivity|].
    intros a Ha. apply Hagree. lia.
  - unfold calculate_crc, bind, get_operations, ret. cbn [self].
    rewrite Ho. reflexivity.
Qed.

(** C4 on two flashes that differ in the four metadata bytes only. *)
Lemma calculate_crc_ignores_metadata_witness :
  let m1 : memory := fun _ => x00 in
  let m2 : memory :=
    fun a => if END_ADDRESS - METADATA_SIZE <=? a then xff else x00 in
  let s1 := fresh (Some Double.ops) (Double.machine m1 [] []) in
  let s2 := fresh (Some Double.ops) (Double.machine m2 [] []) in
  m1 (END_ADDRESS - 1) <> m2 (END_ADDRESS - 1) /\
  fst (calculate_crc s1) = fst (calculate_crc s2).
Proof.
  intros m1 m2 s1 s2. split; [vm_compute; discriminate|].
  apply (calculate_crc_ignores_metadata Double.Dev).
  intros a Ha. cbn [mem Double.machine]. unfold m1, m2.
  destruct (Z.leb_spec (END_ADDRESS - METADATA_SIZE) a) as [Hle|Hlt];
    [lia|reflexivity].
Defined.

(** ** Reading *)

Lemma wrap16_range (x : Z) : 0 <= wrap16 x < 2 ^ 16.
Proof. unfold wrap16. apply Z.mod_pos_bound. reflexivity. Qed.

(** With [size / 4] beyond the 16-bit range the loop condition holds at every
    turn, so no amount of fuel ends the loop. *)
Lemma read_loop_diverges (src dst size : Z) :
  2 ^ 16 <= size / 4 ->
  forall fuel i m,
    0 <= i < 2 ^ 16 ->
    read_loop fuel src dst size i m = None.
Proof.
  intros Hbig. induction fuel as [|fuel IH]; intros i m Hi; [reflexivity|].
  cbn [read_loop].
  destruct (Z.ltb_spec i (size / 4)) as [_|Hge]; [|lia].
  apply IH. apply wrap16_range.
Qed.

(** With [size / 4] within the 16-bit range the loop ends after
    [size / 4 - i] turns. *)
Lemma read_loop_terminates (src dst size : Z) :
  size / 4 <= 2 ^ 16 - 1 ->
  forall k i m fuel,
    0 <= i ->
    Z.to_nat (size / 4 - i) = k ->
    (k < fuel)%nat ->
    read_loop fuel src dst size i m = Some (copy_words k m src dst i).
Proof.
  intros Hsmall. induction k as [|k IH]; intros i m fuel Hi Hk Hfuel.
  - destruct fuel as [|fuel]; [lia|]. cbn [read_loop copy_words].
    destruct (Z.ltb_spec i (size / 4)) as [Hlt|_]; [lia|reflexivity].
  - destruct fuel as [|fuel]; [lia|]. cbn [read_loop copy_words].
    destruct (Z.ltb_spec i (size / 4)) as [Hlt|Hge]; [|lia].
    assert (Hw : wrap16 (i + 1) = i + 1).
    { unfold wrap16. apply Z.mod_small. lia. }
    rewrite Hw. apply IH; lia.
Qed.

Lemma read_bound {D : Type} (o : BootOperations D) (s : Sys D)
      (fuel : nat) (address dst size : Z) :
  m_operations (self s) = Some o ->
  read fuel address dst size s =
    match read_loop fuel address dst size 0 (mem (mach s)) with
    | None => None
    | Some m' =>
        Some (true,
              {| self := self s;
                 mach := BootOps.mkMachine m'
                           (BootOps.lock o (BootOps.unlock o (dev (mach s))));
                 log := log s ++ [EvUnlock; EvLock] |})
    end.
Proof.
  intros Ho. unfold read, call_unlock, call_lock, set_mem. rewrite Ho.
  cbn [mach log self mem dev].
  destruct (read_loop fuel address dst size 0 (mem (mach s))); [|reflexivity].
  rewrite <- app_assoc. reflexivity.
Qed.

(** C10.  With a capability bound, [read] does not return for any [size]
    with [size / 4 >= 65536]: the 16-bit index stays below [size / 4] at
    every turn, whatever the fuel.  For every [size] with
    [size / 4 <= 65535] it returns, after [size / 4] turns of the loop. *)
Theorem read_terminates_only_for_small_sizes :
  forall (D : Type) (o : BootOperations D) (s : Sys D)
         (address dst size : Z),
    m_operations (self s) = Some o ->
    (65536 <= size / 4 ->
       forall fuel, read fuel address dst size s = None) /\
    (size / 4 <= 65535 ->
       exists s',
         forall fuel, (Z.to_nat (size / 4) < fuel)%nat ->
           read fuel address dst size s = Some (true, s')).
Proof.
  intros D o s address dst size Ho. split.
  - intros Hbig fuel. rewrite (read_bound o s fuel address dst size Ho).
    rewrite read_loop_diverges; [reflexivity| |].
    + change (2 ^ 16) with 65536. exact Hbig.
    + change (2 ^ 16) with 65536. lia.
  - intros Hsmall. eexists. intros fuel Hfuel.
    rewrite (read_bound o s fuel address dst size Ho).
    rewrite (read_loop_terminates address dst size)
      with (k := Z.to_nat (size / 4)); [reflexivity| | | |].
    + change (2 ^ 16) with 65536. lia.
    + lia.
    + f_equal. lia.
    + exact Hfuel.
Qed.

(** C10 on the double: 262144 bytes never come back, 262140 bytes do. *)
Lemma read_terminates_only_for_small_sizes_witness :
  let s := fresh (Some Double.ideal)
             (Double.machine (fun _ => xff) [] []) in
  (forall fuel, read fuel START_ADDRESS 0x20000000 262144 s = None) /\
  (exists s', forall fuel, (Z.to_nat 65535 < fuel)%nat ->
      read fuel START_ADDRESS 0x20000000 262140 s = Some (true, s')).
Proof.
  intros s. split.
  - apply (proj1 (read_terminates_only_for_small_sizes Double.Dev
                    Double.ideal s START_ADDRESS 0x20000000 262144 eq_refl)).
    vm_compute. discriminate.
  - destruct (proj2 (read_terminates_only_for_small_sizes Double.Dev
                       Double.ideal s START_ADDRESS 0x20000000 262140 eq_refl))
      as [s' Hs'].
    + vm_compute. discriminate.
    + exists s'. intros fuel Hfuel. apply Hs'.
      change (262140 / 4) with 65535. exact Hfuel.
Defined.

Lemma Z_of_byte_range (b : byte) : 0 <= Z_of_byte b < 256.
Proof.
  unfold Z_of_byte. pose proof (Byte.to_N_bounded b). lia.
Qed.

Lemma byte_of_Z_of_byte (b : byte) : byte_of_Z (Z_of_byte b) = b.
Proof. destruct b; reflexivity. Qed.

(** Byte [k] of the word loaded at [a] is the byte at [a + k]. *)
Lemma load32_byte (m : memory) (a k : Z) :
  0 <= k < 4 ->
  Z.land (Z.shiftr (load32 m a) (8 * k)) 0xFF = Z_of_byte (m (a + k)).
Proof.
  intros Hk. unfold load32, load8.
  pose proof (Z_of_byte_range (m a)) as H0.
  pose proof (Z_of_byte_range (m (a + 1))) as H1.
  pose proof (Z_of_byte_range (m (a + 2))) as H2.
  pose proof (Z_of_byte_range (m (a + 3))) as H3.
  change 0xFF with (Z.ones 8).
  rewrite Z.land_ones, Z.shiftr_div_pow2, !Z.shiftl_mul_pow2 by lia.
  change (2 ^ 8) with 256. change (2 ^ 16) with 65536.
  change (2 ^ 24) with 16777216.
  assert (Hcases : k = 0 \/ k = 1 \/ k = 2 \/ k = 3) by lia.
  destruct Hcases as [ -> | [ -> | [ -> | -> ] ] ].
  - change (2 ^ (8 * 0)) with 1. rewrite Z.add_0_r.
    Z.div_mod_to_equations. lia.
  - change (2 ^ (8 * 1)) with 256. Z.div_mod_to_equations. lia.
  - change (2 ^ (8 * 2)) with 65536. Z.div_mod_to_equations. lia.
  - change (2 ^ (8 * 3)) with 16777216. Z.div_mod_to_equations. lia.
Qed.

(** One turn of the loop copies the four bytes of word [i]. *)
Lemma copy_word_at (m : memory) (src dst i x : Z) :
  copy_word m src dst i x =
    if (dst + 4 * i <=? x) && (x <? dst + 4 * i + 4)
    then m (src + (x - dst)) else m x.
Proof.
  unfold copy_word, store32.
  destruct ((dst + 4 * i <=? x) && (x <? dst + 4 * i + 4)) eqn:E;
    [|reflexivity].
  apply andb_prop in E as [E1 E2].
  apply Z.leb_le in E1. apply Z.ltb_lt in E2.
  rewrite load32_byte by lia. rewrite byte_of_Z_of_byte.
  f_equal. lia.
Qed.

(** [k] turns from index [i] copy the bytes of the words [i] to [i + k],
    when the source words do not lie in the destination. *)
Lemma copy_words_at (src dst : Z) (k : nat) : forall (m : memory) (i x : Z),
  0 <= i ->
  (dst + 4 * (i + Z.of_nat k) <= src + 4 * i \/
   src + 4 * (i + Z.of_nat k) <= dst + 4 * i) ->
  copy_words k m src dst i x =
    if (dst + 4 * i <=? x) && (x <? dst + 4 * (i + Z.of_nat k))
    then m (src + (x - dst)) else m x.
Proof.
  induction k as [|k IH]; intros m i x Hi Hdisj.
  - cbn [copy_words].
    destruct (Z.leb_spec (dst + 4 * i) x), (Z.ltb_spec x (dst + 4 * (i + Z.of_nat 0)));
      cbn [andb]; try reflexivity. lia.
  - cbn [copy_words]. rewrite IH by lia.
    rewrite !copy_word_at.
    destruct (Z.leb_spec (dst + 4 * (i + 1)) x),
             (Z.ltb_spec x (dst + 4 * (i + 1 + Z.of_nat k))),
             (Z.leb_spec (dst + 4 * i) x),
             (Z.ltb_spec x (dst + 4 * (i + Z.of_nat (S k))));
      cbn [andb]; try lia;
      repeat match goal with
             | |- context [Z.leb ?a ?b] => destruct (Z.leb_spec a b)
             | |- context [Z.ltb ?a ?b] => destruct (Z.ltb_spec a b)
             end; cbn [andb]; try reflexivity; try lia.
Qed.

(** What [read] does while the index does not wrap: for [size / 4] up to
    65535 and a destination that does not overlap the source, it returns
    [true] after one unlock and one lock, the first [4 * (size / 4)] bytes of
    [dst] are those of [address], and every other byte, the last [size mod 4]
    of the request among them, is what it was. *)
Lemma read_copies_words {D : Type} (o : BootOperations D) (s : Sys D)
      (address dst size : Z) :
  m_operations (self s) = Some o ->
  0 <= size ->
  size / 4 <= 65535 ->
  (dst + 4 * (size / 4) <= address \/ address + 4 * (size / 4) <= dst) ->
  exists m',
    (forall fuel, (Z.to_nat (size / 4) < fuel)%nat ->
       read fuel address dst size s =
         Some (true,
               {| self := self s;
                  mach := BootOps.mkMachine m'
                            (BootOps.lock o (BootOps.unlock o (dev (mach s))));
                  log := log s ++ [EvUnlock; EvLock] |})) /\
    (forall x, dst <= x < dst + 4 * (size / 4) ->
       m' x = mem (mach s) (address + (x - dst))) /\
    (forall x, ~ dst <= x < dst + 4 * (size / 4) -> m' x = mem (mach s) x).
Proof.
  intros Ho Hsize Hsmall Hdisj.
  assert (Hn : 0 <= size / 4) by (apply Z.div_pos; lia).
  exists (copy_words (Z.to_nat (size / 4)) (mem (mach s)) address dst 0).
  split; [|split].
  - intros fuel Hfuel. rewrite (read_bound o s fuel address dst size Ho).
    rewrite (read_loop_terminates address dst size)
      with (k := Z.to_nat (size / 4)); [reflexivity| | | |].
    + change (2 ^ 16) with 65536. lia.
    + lia.
    + f_equal. lia.
    + exact Hfuel.
  - intros x Hx. rewrite copy_words_at by (rewrite ?Z2Nat.id; lia).
    rewrite Z2Nat.id by lia.
    destruct (Z.leb_spec (dst + 4 * 0) x), (Z.ltb_spec x (dst + 4 * (0 + size / 4)));
      cbn [andb]; try reflexivity; lia.
  - intros x Hx. rewrite copy_words_at by (rewrite ?Z2Nat.id; lia).
    rewrite Z2Nat.id by lia.
    destruct (Z.leb_spec (dst + 4 * 0) x), (Z.ltb_spec x (dst + 4 * (0 + size / 4)));
      cbn [andb]; try reflexivity; lia.
Qed.

(** C9 at 262144 bytes.  The request is for 65536 words; the 16-bit index
    never reaches 65536, so [read] copies on and returns neither [true] nor
    anything else, whatever the fuel. *)
Theorem read_262144_never_returns :
  forall fuel : nat,
    read fuel START_ADDRESS 0x20000000 262144
      (fresh (Some Double.ideal) (Double.machine (fun _ => xff) [] []))
    = None.
Proof.
  intros fuel. rewrite (read_bound Double.ideal) by reflexivity.
  rewrite read_loop_diverges; [reflexivity| |].
  - vm_compute. discriminate.
  - vm_compute. split; [discriminate|reflexivity].
Qed.

(** ** Invariants of the manager over all operations *)

Lemma bracket_scan_app (l1 l2 : list event) : forall st,
  bracket_scan st (l1 ++ l2) =
    match bracket_scan st l1 with
    | Some st' => bracket_scan st' l2
    | None => None
    end.
Proof.
  induction l1 as [|e l1 IH]; intros st; [reflexivity|].
  cbn [app bracket_scan]. destruct (bracket_step st e); [apply IH|reflexivity].
Qed.

Lemma well_bracketed_app (l1 l2 : list event) :
  well_bracketed l1 -> well_bracketed l2 -> well_bracketed (l1 ++ l2).
Proof.
  unfold well_bracketed. intros H1 H2. rewrite bracket_scan_app, H1. exact H2.
Qed.

Section OperationInvariants.

Context {D : Type}.
Implicit Types (o : BootOperations D) (s : Sys D) (c : call) (p : op D).

(** What a write call does to the log, the flag and the cursor. *)
Lemma do_call_effect c s :
  let r := fst (do_call c s) in
  let s' := snd (do_call c s) in
  (exists ext, log s' = log s ++ ext /\ well_bracketed ext) /\
  (m_was_erased (self s) = true -> m_was_erased (self s') = true) /\
  m_write_pointer (self s') =
    match c with
    | CWrite _ _ _ => m_write_pointer (self s)
    | CWriteCont _ size =>
        if r then wrap32 (m_write_pointer (self s) + size)
        else m_write_pointer (self s)
    end.
Proof.
  destruct (m_operations (self s)) as [o|] eqn:Ho.
  - destruct (m_was_erased (self s)) eqn:He.
    + rewrite (do_call_erased o s c Ho He). cbn [fst snd log self].
      split; [eexists; split; [reflexivity|reflexivity]|].
      rewrite after_call_was_erased. split; [auto|].
      destruct c; cbn [after_call]; [reflexivity|].
      destruct (fst (hw_write _ _ _ _ _)); reflexivity.
    + destruct (fst (hw_erase o (mach s))) eqn:Hf.
      * rewrite (do_call_unerased_ok o s c Ho He Hf). cbn [fst snd log self].
        split; [eexists; split; [reflexivity|reflexivity]|].
        rewrite after_call_was_erased. split; [reflexivity|].
        destruct c; cbn [after_call]; [reflexivity|].
        destruct (fst (hw_write _ _ _ _ _)); reflexivity.
      * rewrite (do_call_unerased_fail o s c Ho He Hf). cbn [fst snd log self].
        split; [eexists; split; [reflexivity|reflexivity]|].
        split; [discriminate|]. destruct c; reflexivity.
  - rewrite (do_call_unbound s c Ho). cbn [fst snd].
    split; [exists []; split; [symmetry; apply app_nil_r|reflexivity]|].
    split; [auto|]. destruct c; reflexivity.
Qed.

(** The same for every operation that returns. *)
Lemma do_op_effect fuel p s r s' :
  do_op fuel p s = Some (r, s') ->
  (exists ext, log s' = log s ++ ext /\ well_bracketed ext) /\
  (m_was_erased (self s) = true -> m_was_erased (self s') = true) /\
  m_write_pointer (self s') =
    if advance p r =? 0 then
      match p, r with
      | OpWriteCont _ size, RBool true =>
          wrap32 (m_write_pointer (self s) + size)
      | _, _ => m_write_pointer (self s)
      end
    else wrap32 (m_write_pointer (self s) + advance p r).
Proof.
  assert (Hnil : forall l : list event, l = l ++ []) by
    (intros l; symmetry; apply app_nil_r).
  destruct p as [address dst size|start data size|buffer size| |operations];
    cbn [do_op].
  - destruct (m_operations (self s)) as [o|] eqn:Ho.
    + rewrite (read_bound o s fuel address dst size Ho).
      destruct (read_loop fuel address dst size 0 (mem (mach s)));
        [|discriminate].
      intros E. injection E as <- <-. cbn [log self advance].
      split; [eexists; split; [reflexivity|reflexivity]|]. auto.
    + unfold read. rewrite Ho. intros E. injection E as <- <-.
      split; [exists []; split; [apply Hnil|reflexivity]|]. auto.
  - pose proof (do_call_effect (CWrite start data size) s) as H.
    cbn [do_call] in H.
    destruct (write start data size s) as [b s1]. cbn [fst snd] in H.
    intros E. injection E as <- <-. cbn [advance].
    destruct H as (H1 & H2 & H3). repeat split; try assumption.
  - pose proof (do_call_effect (CWriteCont buffer size) s) as H.
    cbn [do_call] in H.
    destruct (write_continously buffer size s) as [b s1]. cbn [fst snd] in H.
    intros E. injection E as <- <-.
    destruct H as (H1 & H2 & H3). split; [exact H1|]. split; [exact H2|].
    rewrite H3. destruct b; cbn [advance]; [|reflexivity].
    destruct (size =? 0); reflexivity.
  - destruct (m_operations (self s)) as [o|] eqn:Ho.
    + rewrite (calculate_crc_bound o s Ho).
      generalize (not32 (crc_loop
                (Z.to_nat (END_ADDRESS - METADATA_SIZE - START_ADDRESS))
                (mem (mach s)) START_ADDRESS (not32 0))).
      intros v E. injection E as <- <-. cbn [log self advance].
      split; [eexists; split; [reflexivity|reflexivity]|]. auto.
    + unfold calculate_crc, bind, get_operations, ret. rewrite Ho.
      intros E. injection E as <- <-.
      split; [exists []; split; [apply Hnil|reflexivity]|]. auto.
  - unfold set_bootloader_operations.
    intros E. injection E as <- <-. cbn [log self advance].
    split; [exists []; split; [apply Hnil|reflexivity]|]. auto.
Qed.

Lemma run_ops_cons fuel p ps s rs s' :
  run_ops fuel (p :: ps) s = Some (rs, s') ->
  exists r s1 rs',
    do_op fuel p s = Some (r, s1) /\
    run_ops fuel ps s1 = Some (rs', s') /\
    rs = r :: rs'.
Proof.
  cbn [run_ops]. destruct (do_op fuel p s) as [[r s1]|]; [|discriminate].
  destruct (run_ops fuel ps s1) as [[rs' s2]|] eqn:Hrun; [|discriminate].
  intros E. injection E as <- <-. exists r, s1, rs'. auto.
Qed.

End OperationInvariants.

(** X1.  No sequence of [read], [write], [write_continously],
    [calculate_crc] and [set_bootloader_operations] calls resets the erase
    flag: once set it is set after every later operation, also across a
    rebinding of the capability. *)
Theorem erase_flag_is_never_cleared :
  forall (D : Type) (fuel : nat) (ps : list (op D)) (s s' : Sys D)
         (rs : list result),
    run_ops fuel ps s = Some (rs, s') ->
    m_was_erased (self s) = true ->
    m_was_erased (self s') = true.
Proof.
  intros D fuel ps. induction ps as [|p ps IH]; intros s s' rs Hrun He.
  - cbn in Hrun. injection Hrun as <- <-. exact He.
  - apply run_ops_cons in Hrun as (r & s1 & rs' & Hop & Hrun & ->).
    apply (IH s1 s' rs' Hrun).
    apply (do_op_effect fuel p s r s1 Hop). exact He.
Qed.

(** X1 on the double: the flag set by the first write outlives an unbinding,
    a rebinding and a read. *)
Lemma erase_flag_is_never_cleared_witness :
  let s0 := fresh (Some Double.ideal) (Double.machine (fun _ => x00) [] []) in
  let s1 := snd (write START_ADDRESS 0x20000000 8 s0) in
  let ps := [OpSetOperations None; OpWriteCont 0x20000000 8;
             OpSetOperations (Some Double.ops);
             OpRead START_ADDRESS 0x20000100 8] in
  exists rs s', run_ops 3 ps s1 = Some (rs, s') /\
                m_was_erased (self s') = true.
Proof.
  intros s0 s1 ps.
  destruct (run_ops 3 ps s1) as [[rs s']|] eqn:E.
  - exists rs, s'. split; [reflexivity|].
    apply (erase_flag_is_never_cleared Double.Dev 3 ps s1 s' rs E).
    reflexivity.
  - exfalso.
    assert (H : match run_ops 3 ps s1 with
                | Some _ => true
                | None => false
                end = true)
      by (vm_compute; reflexivity).
    rewrite E in H. discriminate.
Defined.

(** X2.  From construction on, the cursor is [START_ADDRESS] plus the lengths
    of the [write_continously] calls that returned [true], in 32 bits:
    [read], [write], [calculate_crc], [set_bootloader_operations] and failed
    [write_continously] calls in between do not move it. *)
Theorem cursor_counts_successful_continuous_writes :
  forall (D : Type) (fuel : nat) (ps : list (op D))
         (ops : option (BootOperations D)) (mc : Machine D)
         (rs : list result) (s' : Sys D),
    run_ops fuel ps (fresh ops mc) = Some (rs, s') ->
    m_write_pointer (self s') = wrap32 (START_ADDRESS + advances ps rs).
Proof.
  intros D fuel ps ops mc rs s' Hrun.
  assert (Hgen : forall ps (s s' : Sys D) rs base,
    run_ops fuel ps s = Some (rs, s') ->
    m_write_pointer (self s) = wrap32 base ->
    m_write_pointer (self s') = wrap32 (base + advances ps rs)).
  { clear. intros ps. induction ps as [|p ps IH]; intros s s' rs base Hrun Hp.
    - cbn in Hrun. injection Hrun as <- <-. cbn [advances].
      rewrite Z.add_0_r. exact Hp.
    - apply run_ops_cons in Hrun as (r & s1 & rs' & Hop & Hrun & ->).
      cbn [advances]. rewrite Z.add_assoc.
      apply (IH s1 s' rs' (base + advance p r) Hrun).
      destruct (do_op_effect fuel p s r s1 Hop) as (_ & _ & Hc).
      rewrite Hc, Hp. clear.
      destruct (Z.eqb_spec (advance p r) 0) as [E|E].
      + rewrite E, Z.add_0_r.
        destruct p; try reflexivity.
        destruct r as [[|]| |]; try reflexivity.
        cbn [advance] in E. subst size. rewrite wrap32_add_l, Z.add_0_r.
        reflexivity.
      + apply wrap32_add_l. }
  apply (Hgen ps (fresh ops mc) s' rs START_ADDRESS Hrun).
  reflexivity.
Qed.

(** X2 on the double: a plain write, a failed continuous write (no
    capability), and two successful ones of 8 and 4 bytes. *)
Lemma cursor_counts_successful_continuous_writes_witness :
  let ps := [OpWrite (START_ADDRESS + 64) 0x20000000 16;
             OpWriteCont 0x20000000 8;
             OpSetOperations None;
             OpWriteCont 0x20000000 32;
             OpSetOperations (Some Double.ideal);
             OpWriteCont 0x20000008 4] in
  exists rs s',
    run_ops 0 ps (fresh (Some Double.ideal)
                    (Double.machine (fun _ => x00) [] [])) = Some (rs, s') /\
    m_write_pointer (self s') = START_ADDRESS + 12.
Proof.
  intros ps.
  destruct (run_ops 0 ps (fresh (Some Double.ideal)
                            (Double.machine (fun _ => x00) [] [])))
    as [[rs s']|] eqn:E.
  - exists rs, s'. split; [reflexivity|].
    rewrite (cursor_counts_successful_continuous_writes _ _ _ _ _ _ _ E).
    assert (Hrs : match run_ops 0 ps (fresh (Some Double.ideal)
                          (Double.machine (fun _ => x00) [] [])) with
                  | Some (rs0, _) => wrap32 (START_ADDRESS + advances ps rs0)
                  | None => START_ADDRESS + 12
                  end = START_ADDRESS + 12)
      by (vm_compute; reflexivity).
    rewrite E in Hrs. exact Hrs.
  - exfalso.
    assert (H : match run_ops 0 ps (fresh (Some Double.ideal)
                        (Double.machine (fun _ => x00) [] [])) with
                | Some _ => true
                | None => false
                end = true)
      by (vm_compute; reflexivity).
    rewrite E in H. discriminate.
Defined.

(** X3.  In the log of any sequence of operations on a fresh manager every
    capability [write] and [erase_app] call stands between an unlock and the
    lock that follows it, one call per unlock; unlocks are never nested; and
    when an operation has returned the flash is locked.  A [jump_to_app]
    made then finds it locked, too. *)
Theorem log_is_well_bracketed :
  forall (D : Type) (fuel : nat) (ps : list (op D))
         (ops : option (BootOperations D)) (mc : Machine D)
         (rs : list result) (s' : Sys D),
    run_ops fuel ps (fresh ops mc) = Some (rs, s') ->
    well_bracketed (log s') /\
    match jump_to_app s' with
    | Returned s'' => log s'' = log s'
    | Transferred _ s'' =>
        log s'' = log s' ++ [EvDeinitPeripherals; EvDeinitSystick] /\
        well_bracketed (log s'')
    end.
Proof.
  intros D fuel ps ops mc rs s' Hrun.
  assert (Hgen : forall ps (s s' : Sys D) rs,
    run_ops fuel ps s = Some (rs, s') ->
    well_bracketed (log s) -> well_bracketed (log s')).
  { clear. intros ps. induction ps as [|p ps IH]; intros s s' rs Hrun Hw.
    - cbn in Hrun. injection Hrun as <- <-. exact Hw.
    - apply run_ops_cons in Hrun as (r & s1 & rs' & Hop & Hrun & ->).
      apply (IH s1 s' rs' Hrun).
      destruct (do_op_effect fuel p s r s1 Hop) as ((ext & -> & Hext) & _).
      apply well_bracketed_app; assumption. }
  assert (Hw : well_bracketed (log s')).
  { apply (Hgen ps (fresh ops mc) s' rs Hrun). reflexivity. }
  split; [exact Hw|].
  unfold jump_to_app, call_deinit_peripherals, call_deinit_systick.
  destruct (m_operations (self s')) as [o|]; [|reflexivity].
  cbn [log]. rewrite <- app_assoc. split; [reflexivity|].
  apply well_bracketed_app; [exact Hw|reflexivity].
Qed.

(** X3 on the double, with a failing erase, a failing write and a read. *)
Lemma log_is_well_bracketed_witness :
  let s0 := fresh (Some Double.ops)
              (Double.machine (fun _ => x00) [false; true] [false]) in
  let ps := [OpWriteCont 0x20000000 8; OpWriteCont 0x20000000 8;
             OpRead START_ADDRESS 0x20000100 6; OpWrite START_ADDRESS 0x20000000 8] in
  exists rs s',
    run_ops 2 ps s0 = Some (rs, s') /\
    well_bracketed (log s') /\
    List.length (log s') = 14%nat.
Proof.
  intros s0 ps.
  destruct (run_ops 2 ps s0) as [[rs s']|] eqn:E.
  - exists rs, s'. split; [reflexivity|]. split.
    + apply (log_is_well_bracketed _ _ _ _ _ _ _ E).
    + assert (H : match run_ops 2 ps s0 with
                  | Some (_, s1) => List.length (log s1)
                  | None => 14%nat
                  end = 14%nat)
        by (vm_compute; reflexivity).
      rewrite E in H. exact H.
  - exfalso.
    assert (H : match run_ops 2 ps s0 with
                | Some _ => true
                | None => false
                end = true)
      by (vm_compute; reflexivity).
    rewrite E in H. discriminate.
Defined.

(** X4.  Taking the capability away and giving it back is transparent: while
    none is bound, every [read], [write], [write_continously] and
    [calculate_crc] returns ([false], or [0] for the checksum) without
    changing the manager, the machine or the log, whatever the fuel; and
    binding the former capability again gives back the state before the
    unbinding, cursor and erase flag included. *)
Theorem unbinding_is_transparent :
  forall (D : Type) (fuel : nat) (ps : list (op D)) (s : Sys D)
         (o : BootOperations D),
    m_operations (self s) = Some o ->
    Forall (fun p => match p with
                     | OpSetOperations _ => False
                     | _ => True
                     end) ps ->
    let s1 := snd (set_bootloader_operations None s) in
    exists rs,
      run_ops fuel ps s1 = Some (rs, s1) /\
      Forall (fun r => r = RBool false \/ r = RCrc 0) rs /\
      snd (set_bootloader_operations (Some o) s1) = s.
Proof.
  intros D fuel ps s o Ho Hps s1.
  assert (Hnone : m_operations (self s1) = None) by reflexivity.
  assert (Hrun : exists rs,
             run_ops fuel ps s1 = Some (rs, s1) /\
             Forall (fun r => r = RBool false \/ r = RCrc 0) rs).
  { clearbody s1. clear Ho.
    induction Hps as [|p ps Hp Hps IH].
    - exists []. split; [reflexivity|constructor].
    - destruct IH as (rs & Hrs & Hall).
      assert (Hop : exists r, do_op fuel p s1 = Some (r, s1) /\
                              (r = RBool false \/ r = RCrc 0)).
      { destruct p as [a d n|a d n|b n| |ops]; cbn [do_op].
        - unfold read. rewrite Hnone. eauto.
        - change (write a d n) with (@do_call D (CWrite a d n)).
          rewrite (do_call_unbound s1 _ Hnone). eauto.
        - change (write_continously b n) with (@do_call D (CWriteCont b n)).
          rewrite (do_call_unbound s1 _ Hnone). eauto.
        - unfold calculate_crc, bind, get_operations, ret. rewrite Hnone.
          eauto.
        - contradiction. }
      destruct Hop as (r & Hop & Hr).
      exists (r :: rs). cbn [run_ops]. rewrite Hop, Hrs.
      split; [reflexivity|constructor; assumption]. }
  destruct Hrun as (rs & Hrs & Hall).
  exists rs. split; [exact Hrs|]. split; [exact Hall|].
  subst s1. destruct s as [[ops e p] mc l]. cbn in Ho. subst ops.
  reflexivity.
Qed.

(** X4 on the double, in the middle of an update. *)
Lemma unbinding_is_transparent_witness :
  let s := snd (write_continously 0x20000000 8
                  (fresh (Some Double.ideal)
                     (Double.machine (fun _ => x00) [] []))) in
  let ps := [OpWriteCont 0x20000008 8; OpRead START_ADDRESS 0x20000100 262144;
             OpCalculateCrc; OpWrite START_ADDRESS 0x20000000 8] in
  let s1 := snd (set_bootloader_operations None s) in
  exists rs, run_ops 0 ps s1 = Some (rs, s1) /\
             snd (set_bootloader_operations (Some Double.ideal) s1) = s.
Proof.
  intros s ps s1.
  destruct (unbinding_is_transparent Double.Dev 0 ps s Double.ideal)
    as (rs & Hrs & _ & Hback).
  - reflexivity.
  - repeat constructor.
  - exists rs. split; [exact Hrs|exact Hback].
Defined.

(** X5.  The erase flag belongs to the manager, not to the capability: when
    a manager that has erased is bound to another capability, the cursor
    stays where it is, no later [write] or [write_continously] call asks the
    new capability to erase, and each call returns what the new capability's
    write returns. *)
Theorem rebinding_does_not_erase_again :
  forall (D : Type) (s : Sys D) (o2 : BootOperations D) (cs : list call),
    m_was_erased (self s) = true ->
    let s1 := snd (set_bootloader_operations (Some o2) s) in
    m_write_pointer (self s1) = m_write_pointer (self s) /\
    erase_events (log (snd (run cs s1))) = erase_events (log s) /\
    write_results (log (snd (run cs s1))) =
      write_results (log s) ++ fst (run cs s1) /\
    List.length (write_events (log (snd (run cs s1)))) =
      (List.length (write_events (log s)) + List.length cs)%nat.
Proof.
  intros D s o2 cs He s1.
  assert (Ho : m_operations (self s1) = Some o2) by reflexivity.
  assert (He1 : m_was_erased (self s1) = true) by exact He.
  destruct (run_erased o2 cs s1 Ho He1) as (_ & H2 & H3).
  split; [reflexivity|]. split; [exact H2|]. split; [exact H3|].
  pose proof (f_equal (@List.length bool) H3) as Hlen.
  unfold write_results in Hlen. rewrite length_app, !length_map in Hlen.
  rewrite Hlen. f_equal.
  generalize s1. clear.
  induction cs as [|c cs IH]; intros t; [reflexivity|].
  rewrite run_cons. cbn [fst List.length]. f_equal. apply IH.
Qed.

(** X5 on the doubles: erased through one, then written through the other. *)
Lemma rebinding_does_not_erase_again_witness :
  let s := snd (write_continously 0x20000000 8
                  (fresh (Some Double.ideal)
                     (Double.machine (fun _ => x00) [] []))) in
  let s1 := snd (set_bootloader_operations (Some Double.ops) s) in
  let cs := [CWriteCont 0x20000008 8; CWrite START_ADDRESS 0x20000000 4] in
  erase_events (log (snd (run cs s1))) = [true] /\
  m_write_pointer (self s1) = START_ADDRESS + 8.
Proof.
  intros s s1 cs.
  destruct (rebinding_does_not_erase_again Double.Dev s Double.ops cs eq_refl)
    as (Hp & He & _).
  split; [exact He|exact Hp].
Defined.

(** X6.  While the index does not wrap, [read] copies whole words: for
    [size / 4] up to 65535 and a destination that does not overlap the
    source, it returns [true] after one unlock and one lock and leaves the
    manager's fields alone; the first [4 * (size / 4)] bytes at [dst] are
    those at [address]; every other byte of the memory, the last
    [size mod 4] bytes of the request among them, is what it was. *)
Theorem read_copies_whole_words :
  forall (D : Type) (o : BootOperations D) (s : Sys D)
         (address dst size : Z),
    m_operations (self s) = Some o ->
    0 <= size ->
    size / 4 <= 65535 ->
    (dst + 4 * (size / 4) <= address \/ address + 4 * (size / 4) <= dst) ->
    exists m',
      (forall fuel, (Z.to_nat (size / 4) < fuel)%nat ->
         read fuel address dst size s =
           Some (true,
                 {| self := self s;
                    mach := BootOps.mkMachine m'
                              (BootOps.lock o
                                 (BootOps.unlock o (dev (mach s))));
                    log := log s ++ [EvUnlock; EvLock] |})) /\
      (forall x, dst <= x < dst + 4 * (size / 4) ->
         m' x = mem (mach s) (address + (x - dst))) /\
      (forall x, ~ dst <= x < dst + 4 * (size / 4) -> m' x = mem (mach s) x).
Proof.
  intros D o s address dst size Ho Hsize Hsmall Hdisj.
  assert (Hn : 0 <= size / 4) by (apply Z.div_pos; lia).
  exists (copy_words (Z.to_nat (size / 4)) (mem (mach s)) address dst 0).
  split; [|split].
  - intros fuel Hfuel. rewrite (read_bound o s fuel address dst size Ho).
    rewrite (read_loop_terminates address dst size)
      with (k := Z.to_nat (size / 4)); [reflexivity| | | |].
    + change (2 ^ 16) with 65536. lia.
    + lia.
    + f_equal. lia.
    + exact Hfuel.
  - intros x Hx. rewrite copy_words_at by (rewrite ?Z2Nat.id; lia).
    rewrite Z2Nat.id by lia.
    destruct (Z.leb_spec (dst + 4 * 0) x),
             (Z.ltb_spec x (dst + 4 * (0 + size / 4)));
      cbn [andb]; try reflexivity; lia.
  - intros x Hx. rewrite copy_words_at by (rewrite ?Z2Nat.id; lia).
    rewrite Z2Nat.id by lia.
    destruct (Z.leb_spec (dst + 4 * 0) x),
             (Z.ltb_spec x (dst + 4 * (0 + size / 4)));
      cbn [andb]; try reflexivity; lia.
Qed.

(** X6 on the double: ten bytes asked for, eight copied. *)
Lemma read_copies_whole_words_witness :
  let s := fresh (Some Double.ideal)
             (Double.machine
                (Double.mem_with START_ADDRESS
                   [x01; x02; x03; x04; x05; x06; x07; x08; x09; x0a])
                [] []) in
  exists m',
    (forall fuel, (Z.to_nat (10 / 4) < fuel)%nat ->
       exists s', read fuel START_ADDRESS 0x20000000 10 s = Some (true, s') /\
                  mem (mach s') = m') /\
    m' 0x20000007 = x08 /\
    m' 0x20000008 = xff.
Proof.
  intros s.
  destruct (read_copies_whole_words Double.Dev Double.ideal s START_ADDRESS
              0x20000000 10)
    as (m' & Hread & Hin & Hout).
  - reflexivity.
  - discriminate.
  - vm_compute. discriminate.
  - right. vm_compute. discriminate.
  - exists m'. split; [|split].
    + intros fuel Hfuel. eexists. split; [apply (Hread fuel Hfuel)|reflexivity].
    + rewrite Hin; [reflexivity|]. change (10 / 4) with 2. lia.
    + rewrite Hout; [reflexivity|]. change (10 / 4) with 2. lia.
Defined.

(** X7.  The application region is 26624 words long, which the 16-bit index
    of [read] can count: with a capability bound, every [read] of at most
    [get_app_size] bytes returns [true], within 26625 turns of the loop. *)
Theorem read_within_region_returns :
  forall (D : Type) (o : BootOperations D) (s : Sys D)
         (address dst size : Z),
    m_operations (self s) = Some o ->
    size <= get_app_size ->
    exists s',
      forall fuel, (Z.to_nat (get_app_size / 4) < fuel)%nat ->
        read fuel address dst size s = Some (true, s').
Proof.
  intros D o s address dst size Ho Hsize.
  assert (Happ : get_app_size = 106496) by (vm_compute; reflexivity).
  rewrite Happ in *. change (106496 / 4) with 26624.
  assert (Hq : size / 4 <= 26624).
  { change 26624 with (106496 / 4). apply Z.div_le_mono; lia. }
  eexists. intros fuel Hfuel.
  rewrite (read_bound o s fuel address dst size Ho).
  rewrite (read_loop_terminates address dst size)
    with (k := Z.to_nat (size / 4)); [reflexivity| | | |].
  - change (2 ^ 16) with 65536. lia.
  - lia.
  - f_equal. lia.
  - lia.
Qed.

(** X7 on the double: the whole region. *)
Lemma read_within_region_returns_witness :
  exists s',
    forall fuel, (Z.to_nat 26624 < fuel)%nat ->
      read fuel START_ADDRESS 0x20000000 106496
        (fresh (Some Double.ideal) (Double.machine (fun _ => xff) [] []))
      = Some (true, s').
Proof.
  destruct (read_within_region_returns Double.Dev Double.ideal
              (fresh (Some Double.ideal) (Double.machine (fun _ => xff) [] []))
              START_ADDRESS 0x20000000 106496)
    as [s' Hs'].
  - reflexivity.
  - vm_compute. discriminate.
  - exists s'. intros fuel Hfuel. apply Hs'.
    change (get_app_size / 4) with 26624. exact Hfuel.
Defined.

(** ** The table against the bit-by-bit division *)

Ltac bitwise :=
  apply Z.bits_inj'; intros ?n ?Hn;
  repeat (rewrite Z.lxor_spec || rewrite Z.land_spec);
  repeat match goal with
         | |- context [Z.testbit ?a ?b] => destruct (Z.testbit a b)
         end;
  reflexivity.

Lemma land_1_cases (x : Z) : Z.land x 1 = 0 \/ Z.land x 1 = 1.
Proof.
  change 1 with (Z.ones 1) at 1 2. rewrite Z.land_ones by lia.
  change (2 ^ 1) with 2. pose proof (Z.mod_pos_bound x 2). lia.
Qed.

(** One round of the division is linear for [xor]. *)
Lemma table_rem_1_lxor (x y : Z) :
  table_rem 1 (Z.lxor x y) = Z.lxor (table_rem 1 x) (table_rem 1 y).
Proof.
  cbn [table_rem].
  assert (Hd : Z.land (Z.lxor x y) 1 = Z.lxor (Z.land x 1) (Z.land y 1))
    by bitwise.
  rewrite Hd, Z.shiftr_lxor.
  generalize (Z.shiftr x 1) (Z.shiftr y 1) CRC32_POLYNOMIALL.
  intros sx sy P.
  destruct (land_1_cases x) as [-> | ->], (land_1_cases y) as [-> | ->];
    cbn; bitwise.
Qed.

Lemma table_rem_S (j : nat) (x : Z) :
  table_rem (S j) x = table_rem j (table_rem 1 x).
Proof. reflexivity. Qed.

Lemma table_rem_lxor (j : nat) : forall x y,
  table_rem j (Z.lxor x y) = Z.lxor (table_rem j x) (table_rem j y).
Proof.
  induction j as [|j IH]; intros x y; [reflexivity|].
  rewrite (table_rem_S j (Z.lxor x y)), (table_rem_S j x), (table_rem_S j y).
  rewrite table_rem_1_lxor. apply IH.
Qed.

(** [j] rounds undo a shift by [j]. *)
Lemma table_rem_shiftl (j : nat) : forall h,
  table_rem j (Z.shiftl h (Z.of_nat j)) = h.
Proof.
  induction j as [|j IH]; intros h.
  - cbn [table_rem]. apply Z.shiftl_0_r.
  - rewrite table_rem_S.
    replace (Z.of_nat (S j)) with (Z.of_nat j + 1) by lia.
    rewrite <- Z.shiftl_shiftl by lia.
    set (y := Z.shiftl h (Z.of_nat j)).
    assert (Hstep : table_rem 1 (Z.shiftl y 1) = y).
    { cbn [table_rem].
      assert (Hlow : Z.land (Z.shiftl y 1) 1 = 0).
      { change 1 with (Z.ones 1) at 2. rewrite Z.land_ones by lia.
        rewrite Z.shiftl_mul_pow2 by lia. change (2 ^ 1) with 2.
        apply Z.mod_mul. lia. }
      rewrite Hlow. cbn [Z.eqb].
      rewrite Z.shiftr_shiftl_l by lia. apply Z.shiftl_0_r. }
    rewrite Hstep. apply IH.
Qed.

Lemma split_low_high (x j : Z) :
  0 <= j ->
  x = Z.lxor (Z.land x (Z.ones j)) (Z.shiftl (Z.shiftr x j) j).
Proof.
  intros Hj. apply Z.bits_inj'. intros n Hn.
  rewrite Z.lxor_spec, Z.land_spec, Z.testbit_ones_nonneg by lia.
  rewrite Z.shiftl_spec by lia.
  destruct (Z.ltb_spec n j) as [Hlt|Hge].
  - rewrite (Z.testbit_neg_r _ (n - j)) by lia.
    destruct (Z.testbit x n); reflexivity.
  - rewrite Z.shiftr_spec by lia.
    replace (n - j + j) with n by lia.
    destruct (Z.testbit x n); reflexivity.
Qed.

(** [j] rounds on [x] are [j] rounds on its low [j] bits, [xor] the rest. *)
Lemma table_rem_split (j : nat) (x : Z) :
  table_rem j x =
    Z.lxor (table_rem j (Z.land x (Z.ones (Z.of_nat j))))
           (Z.shiftr x (Z.of_nat j)).
Proof.
  rewrite (split_low_high x (Z.of_nat j)) at 1 by lia.
  rewrite table_rem_lxor, table_rem_shiftl. reflexivity.
Qed.

Lemma in_indices (i : Z) : 0 <= i < 256 -> In i indices.
Proof.
  intros Hi. unfold indices. apply in_map_iff.
  exists (Z.to_nat i). split; [lia|]. apply in_seq. lia.
Qed.

Lemma table_at_rem (i : Z) : 0 <= i < 256 -> table_at i = table_rem 8 i.
Proof.
  intros Hi. unfold table_at, table.
  change 0 with ((fun k => table_rem 8 (Z.of_nat k)) 0%nat) at 1.
  rewrite map_nth, seq_nth by lia.
  cbn [Nat.add]. rewrite Z2Nat.id by lia. reflexivity.
Qed.

Lemma land_255_range (x : Z) : 0 <= Z.land x 0xFF < 256.
Proof.
  change 0xFF with (Z.ones 8). rewrite Z.land_ones by lia.
  apply Z.mod_pos_bound. reflexivity.
Qed.

(** X8.  The table lookup of the fold is the division it stands for: for a
    byte [b], [table[(crc ^ b) & 0xFF] ^ (crc >> 8)] is what eight rounds of
    shift and conditional [xor] with the polynomial make of [crc ^ b]. *)
Theorem crc_step_is_bitwise_division :
  forall crc b : Z,
    0 <= b < 256 ->
    crc_step crc b = table_rem 8 (Z.lxor crc b).
Proof.
  intros crc b Hb. unfold crc_step.
  rewrite table_at_rem by apply land_255_range.
  rewrite (table_rem_split 8 (Z.lxor crc b)).
  change (Z.of_nat 8) with 8. change (Z.ones 8) with 0xFF.
  f_equal. rewrite Z.shiftr_lxor.
  assert (Hb8 : Z.shiftr b 8 = 0).
  { rewrite Z.shiftr_div_pow2 by lia. apply Z.div_small. exact Hb. }
  rewrite Hb8. symmetry. apply Z.lxor_0_r.
Qed.

(** X8 at the first byte of a scan. *)
Lemma crc_step_is_bitwise_division_witness :
  crc_step (not32 0) 0x31 = table_rem 8 (Z.lxor (not32 0) 0x31) /\
  crc_step (not32 0) 0x31 = 0x7C231048.
Proof.
  split.
  - apply crc_step_is_bitwise_division. split; [discriminate|reflexivity].
  - vm_compute. reflexivity.
Defined.

(** ** The accumulator stays within 32 bits *)

Lemma lxor_u32 (a b : Z) : in_u32 a -> in_u32 b -> in_u32 (Z.lxor a b).
Proof.
  unfold in_u32. intros Ha Hb.
  assert (Hlog : forall x, 0 <= x < 2 ^ 32 -> Z.log2 x < 32).
  { intros x Hx. destruct (Z.eq_dec x 0) as [->|Hne]; [reflexivity|].
    apply Z.log2_lt_pow2; lia. }
  assert (Hnn : 0 <= Z.lxor a b) by (apply Z.lxor_nonneg; lia).
  split; [exact Hnn|].
  destruct (Z.eq_dec (Z.lxor a b) 0) as [->|Hne]; [reflexivity|].
  apply Z.log2_lt_pow2; [lia|].
  pose proof (Z.log2_lxor a b ltac:(lia) ltac:(lia)) as Hmax.
  pose proof (Hlog a Ha). pose proof (Hlog b Hb). lia.
Qed.

Lemma shiftr_8_u32 (x : Z) : in_u32 x -> in_u32 (Z.shiftr x 8).
Proof.
  unfold in_u32. intros Hx. rewrite Z.shiftr_div_pow2 by lia.
  change (2 ^ 8) with 256. split.
  - apply Z.div_pos; lia.
  - apply Z.div_lt_upper_bound; lia.
Qed.

Lemma table_in_u32_true :
  forallb (fun i => (0 <=? table_at i) && (table_at i <? 2 ^ 32)) indices
  = true.
Proof. vm_compute. reflexivity. Qed.

Lemma table_at_u32 (i : Z) : 0 <= i < 256 -> in_u32 (table_at i).
Proof.
  intros Hi.
  pose proof table_in_u32_true as Hall.
  rewrite forallb_forall in Hall.
  specialize (Hall i (in_indices i Hi)).
  apply andb_prop in Hall as [H1 H2].
  apply Z.leb_le in H1. apply Z.ltb_lt in H2. split; assumption.
Qed.

Lemma crc_step_u32 (crc b : Z) : in_u32 crc -> in_u32 (crc_step crc b).
Proof.
  intros Hc. unfold crc_step. apply lxor_u32.
  - apply table_at_u32, land_255_range.
  - apply shiftr_8_u32, Hc.
Qed.

Lemma crc_loop_u32 (m : memory) (len : nat) : forall dp crc,
  in_u32 crc -> in_u32 (crc_loop len m dp crc).
Proof.
  induction len as [|len IH]; intros dp crc Hc; [exact Hc|].
  cbn [crc_loop]. apply IH, crc_step_u32, Hc.
Qed.

Lemma not32_u32 (x : Z) : in_u32 x -> not32 x = 0xFFFFFFFF - x.
Proof.
  unfold in_u32, not32, wrap32. intros Hx.
  replace (Z.lnot x) with (-x - 1) by (unfold Z.lnot; lia).
  change (2 ^ 32) with 4294967296 in *.
  replace (- x - 1) with ((4294967295 - x) + -1 * 4294967296) by lia.
  rewrite Z.mod_add by lia. apply Z.mod_small. lia.
Qed.

Lemma seed_u32 : in_u32 (not32 0).
Proof. vm_compute. split; [discriminate|reflexivity]. Qed.

(** X9.  Every entry of the table fits 32 bits, and so does the accumulator
    after any number of bytes when it did before: the unbounded integers of
    the model never leave the range of the [uint32_t] of the source, and the
    final complement of an accumulator [x] is [0xFFFFFFFF - x]. *)
Theorem crc_stays_within_32_bits :
  (forall i, 0 <= i < 256 -> in_u32 (table_at i)) /\
  (forall (m : memory) (len : nat) (dp crc : Z),
     in_u32 crc -> in_u32 (crc_loop len m dp crc)) /\
  (forall (m : memory) (len : nat) (dp : Z),
     not32 (crc_loop len m dp (not32 0)) =
       0xFFFFFFFF - crc_loop len m dp (not32 0) /\
     in_u32 (not32 (crc_loop len m dp (not32 0)))).
Proof.
  split; [exact table_at_u32|]. split; [exact crc_loop_u32|].
  intros m len dp.
  pose proof (crc_loop_u32 m len dp (not32 0) seed_u32) as H.
  rewrite (not32_u32 _ H). split; [reflexivity|].
  unfold in_u32 in *. change (2 ^ 32) with 4294967296 in *. lia.
Qed.

(** ** Scanning in pieces *)

Lemma crc_loop_split (m : memory) (n1 : nat) : forall (n2 : nat) (dp crc : Z),
  crc_loop (n1 + n2) m dp crc =
    crc_loop n2 m (dp + Z.of_nat n1) (crc_loop n1 m dp crc).
Proof.
  induction n1 as [|n1 IH]; intros n2 dp crc.
  - cbn [Nat.add crc_loop]. rewrite Z.add_0_r. reflexivity.
  - cbn [Nat.add crc_loop]. rewrite IH. f_equal. lia.
Qed.

(** X10.  A scan can be made in pieces: scanning [n1 + n2] bytes is scanning
    [n1] bytes and then the next [n2] bytes from the accumulator the first
    scan left, and so for the complemented results: the checksum of the
    whole is the checksum of the second piece seeded with the complement of
    the checksum of the first. *)
Theorem crc_loop_app :
  forall (m : memory) (n1 n2 : nat) (dp crc : Z),
    crc_loop (n1 + n2) m dp crc =
      crc_loop n2 m (dp + Z.of_nat n1) (crc_loop n1 m dp crc) /\
    not32 (crc_loop (n1 + n2) m dp (not32 0)) =
      not32 (crc_loop n2 m (dp + Z.of_nat n1)
               (not32 (not32 (crc_loop n1 m dp (not32 0))))).
Proof.
  intros m n1 n2 dp crc. split; [apply crc_loop_split|].
  rewrite crc_loop_split. do 2 f_equal.
  pose proof (crc_loop_u32 m n1 dp (not32 0) seed_u32) as H.
  rewrite (not32_u32 _ H).
  assert (H' : in_u32 (0xFFFFFFFF - crc_loop n1 m dp (not32 0))).
  { unfold in_u32 in *. change (2 ^ 32) with 4294967296 in *. lia. }
  rewrite (not32_u32 _ H'). lia.
Qed.

(** ** Error detection *)

Lemma table_tops_distinct_true :
  forallb (fun i => forallb (tops_differ i) indices) indices = true.
Proof. vm_compute. reflexivity. Qed.

Lemma forallb2_indices (P : Z -> Z -> bool) :
  forallb (fun i => forallb (P i) indices) indices = true ->
  forall i j, 0 <= i < 256 -> 0 <= j < 256 -> P i j = true.
Proof.
  intros H i j Hi Hj.
  rewrite forallb_forall in H. specialize (H i (in_indices i Hi)).
  rewrite forallb_forall in H. exact (H j (in_indices j Hj)).
Qed.

Lemma table_top_inj (i j : Z) :
  0 <= i < 256 -> 0 <= j < 256 ->
  Z.shiftr (table_at i) 24 = Z.shiftr (table_at j) 24 -> i = j.
Proof.
  intros Hi Hj Htop.
  pose proof (forallb2_indices tops_differ table_tops_distinct_true i j Hi Hj)
    as H.
  unfold tops_differ in H. rewrite Htop, Z.eqb_refl in H.
  apply Z.eqb_eq. exact H.
Qed.

Lemma lxor_cancel_l (a x y : Z) : Z.lxor a x = Z.lxor a y -> x = y.
Proof.
  intros H. apply (f_equal (Z.lxor a)) in H.
  rewrite <- !Z.lxor_assoc, Z.lxor_nilpotent, !Z.lxor_0_l in H. exact H.
Qed.

Lemma lxor_cancel_r (a x y : Z) : Z.lxor x a = Z.lxor y a -> x = y.
Proof.
  intros H. rewrite (Z.lxor_comm x), (Z.lxor_comm y) in H.
  exact (lxor_cancel_l a x y H).
Qed.

Lemma land_lxor_cancel (x y b k : Z) :
  Z.land (Z.lxor x b) k = Z.land (Z.lxor y b) k -> Z.land x k = Z.land y k.
Proof.
  intros H. apply Z.bits_inj'. intros n Hn.
  apply (f_equal (fun v => Z.testbit v n)) in H.
  rewrite !Z.land_spec, !Z.lxor_spec in H. rewrite !Z.land_spec.
  destruct (Z.testbit x n), (Z.testbit y n), (Z.testbit b n),
    (Z.testbit k n); cbn in *; congruence.
Qed.

Lemma land_lxor_cancel_l (c x y k : Z) :
  Z.land (Z.lxor c x) k = Z.land (Z.lxor c y) k -> Z.land x k = Z.land y k.
Proof.
  rewrite (Z.lxor_comm c x), (Z.lxor_comm c y). apply land_lxor_cancel.
Qed.

Lemma top_of_step (crc b : Z) :
  in_u32 crc ->
  Z.shiftr (crc_step crc b) 24 =
    Z.shiftr (table_at (Z.land (Z.lxor crc b) 0xFF)) 24.
Proof.
  unfold in_u32, crc_step. intros Hc.
  rewrite Z.shiftr_lxor, Z.shiftr_shiftr by lia.
  change (8 + 24) with 32.
  rewrite (Z.shiftr_div_pow2 crc 32) by lia.
  rewrite (Z.div_small crc (2 ^ 32)) by exact Hc.
  apply Z.lxor_0_r.
Qed.

Lemma split_byte (c : Z) : c = 256 * Z.shiftr c 8 + Z.land c 0xFF.
Proof.
  change 0xFF with (Z.ones 8). rewrite Z.land_ones, Z.shiftr_div_pow2 by lia.
  change (2 ^ 8) with 256. apply Z.div_mod. lia.
Qed.

(** The fold loses nothing of the accumulator. *)
Lemma crc_step_inj_crc (c1 c2 b : Z) :
  in_u32 c1 -> in_u32 c2 ->
  crc_step c1 b = crc_step c2 b -> c1 = c2.
Proof.
  intros H1 H2 H.
  assert (Hidx : Z.land (Z.lxor c1 b) 0xFF = Z.land (Z.lxor c2 b) 0xFF).
  { apply table_top_inj; try apply land_255_range.
    rewrite <- !top_of_step by assumption. rewrite H. reflexivity. }
  unfold crc_step in H. rewrite Hidx in H. apply lxor_cancel_l in H.
  apply land_lxor_cancel in Hidx.
  rewrite (split_byte c1), (split_byte c2), H, Hidx. reflexivity.
Qed.

(** Nor of the byte. *)
Lemma crc_step_inj_byte (c b1 b2 : Z) :
  0 <= b1 < 256 -> 0 <= b2 < 256 ->
  crc_step c b1 = crc_step c b2 -> b1 = b2.
Proof.
  intros H1 H2 H. unfold crc_step in H. apply lxor_cancel_r in H.
  assert (Hidx : Z.land (Z.lxor c b1) 0xFF = Z.land (Z.lxor c b2) 0xFF).
  { apply table_top_inj; try apply land_255_range. rewrite H. reflexivity. }
  apply land_lxor_cancel_l in Hidx.
  change 0xFF with (Z.ones 8) in Hidx.
  rewrite !Z.land_ones in Hidx by lia. change (2 ^ 8) with 256 in Hidx.
  rewrite !Z.mod_small in Hidx by assumption. exact Hidx.
Qed.

Lemma crc_loop_inj (m : memory) (len : nat) : forall dp c1 c2,
  in_u32 c1 -> in_u32 c2 ->
  crc_loop len m dp c1 = crc_loop len m dp c2 -> c1 = c2.
Proof.
  induction len as [|len IH]; intros dp c1 c2 H1 H2 H; [exact H|].
  cbn [crc_loop] in H.
  apply IH in H; try (apply crc_step_u32; assumption).
  exact (crc_step_inj_crc c1 c2 _ H1 H2 H).
Qed.

Lemma Z_of_byte_inj (b1 b2 : byte) : Z_of_byte b1 = Z_of_byte b2 -> b1 = b2.
Proof.
  intros H. rewrite <- (byte_of_Z_of_byte b1), <- (byte_of_Z_of_byte b2), H.
  reflexivity.
Qed.

(** A scan of two memories that differ in exactly one of the bytes scanned
    ends in different accumulators. *)
Lemma crc_loop_detects (m1 m2 : memory) (n1 n2 : nat) (dp crc : Z) :
  in_u32 crc ->
  (forall x, dp <= x < dp + Z.of_nat (n1 + S n2) ->
             x <> dp + Z.of_nat n1 -> m1 x = m2 x) ->
  m1 (dp + Z.of_nat n1) <> m2 (dp + Z.of_nat n1) ->
  crc_loop (n1 + S n2) m1 dp crc <> crc_loop (n1 + S n2) m2 dp crc.
Proof.
  intros Hc Hsame Hdiff Heq. apply Hdiff. clear Hdiff.
  rewrite !crc_loop_split in Heq.
  rewrite (crc_loop_ext m1 m2 n1 dp crc) in Heq
    by (intros x Hx; apply Hsame; lia).
  cbn [crc_loop] in Heq.
  rewrite (crc_loop_ext m1 m2 n2) in Heq
    by (intros x Hx; apply Hsame; lia).
  apply crc_loop_inj in Heq;
    try (apply crc_step_u32, crc_loop_u32, Hc).
  apply crc_step_inj_byte in Heq; try apply Z_of_byte_range.
  apply Z_of_byte_inj. exact Heq.
Qed.

(** X11.  With a capability bound, [calculate_crc] tells apart any two
    flash contents that differ in exactly one byte of the scanned range
    [START_ADDRESS .. END_ADDRESS - METADATA_SIZE). *)
Theorem calculate_crc_detects_one_changed_byte :
  forall (D : Type) (m : Manager D) (o : BootOperations D)
         (mc1 mc2 : Machine D) (l1 l2 : list event) (a : Z),
    m_operations m = Some o ->
    START_ADDRESS <= a < END_ADDRESS - METADATA_SIZE ->
    mem mc1 a <> mem mc2 a ->
    (forall x, START_ADDRESS <= x < END_ADDRESS - METADATA_SIZE ->
               x <> a -> mem mc1 x = mem mc2 x) ->
    fst (calculate_crc {| self := m; mach := mc1; log := l1 |}) <>
    fst (calculate_crc {| self := m; mach := mc2; log := l2 |}).
Proof.
  intros D m o mc1 mc2 l1 l2 a Ho Ha Hdiff Hsame.
  rewrite !(calculate_crc_bound o) by exact Ho. cbn [fst mach].
  assert (Hlen : Z.to_nat (END_ADDRESS - METADATA_SIZE - START_ADDRESS) =
                 (Z.to_nat (a - START_ADDRESS) +
                  S (Z.to_nat (END_ADDRESS - METADATA_SIZE - a - 1)))%nat)
    by lia.
  rewrite Hlen.
  assert (Hn1 : Z.of_nat (Z.to_nat (a - START_ADDRESS)) = a - START_ADDRESS)
    by lia.
  assert (Htot : Z.of_nat (Z.to_nat (a - START_ADDRESS) +
                   S (Z.to_nat (END_ADDRESS - METADATA_SIZE - a - 1))) =
                 END_ADDRESS - METADATA_SIZE - START_ADDRESS) by lia.
  revert Hn1 Htot.
  generalize (Z.to_nat (a - START_ADDRESS))
             (Z.to_nat (END_ADDRESS - METADATA_SIZE - a - 1)).
  intros n1 n2 Hn1 Htot Heq.
  apply (crc_loop_detects (mem mc1) (mem mc2) n1 n2 START_ADDRESS (not32 0)).
  - exact seed_u32.
  - intros x Hx Hne. apply Hsame; lia.
  - replace (START_ADDRESS + Z.of_nat n1) with a by lia. exact Hdiff.
  - pose proof (crc_loop_u32 (mem mc1) (n1 + S n2) START_ADDRESS _ seed_u32)
      as H1.
    pose proof (crc_loop_u32 (mem mc2) (n1 + S n2) START_ADDRESS _ seed_u32)
      as H2.
    rewrite (not32_u32 _ H1), (not32_u32 _ H2) in Heq. lia.
Qed.

(** X11 on two flashes that differ in the last scanned byte. *)
Lemma calculate_crc_detects_one_changed_byte_witness :
  let a := END_ADDRESS - METADATA_SIZE - 1 in
  let m1 : memory := fun _ => xff in
  let m2 : memory := fun x => if x =? a then x00 else xff in
  fst (calculate_crc (fresh (Some Double.ops) (Double.machine m1 [] []))) <>
  fst (calculate_crc (fresh (Some Double.ops) (Double.machine m2 [] []))).
Proof.
  intros a m1 m2.
  apply (calculate_crc_detects_one_changed_byte Double.Dev _ Double.ops
           _ _ _ _ a).
  - reflexivity.
  - vm_compute. split; [discriminate|reflexivity].
  - cbn [mem Double.machine]. unfold m1, m2. rewrite Z.eqb_refl. discriminate.
  - intros x _ Hne. cbn [mem Double.machine]. unfold m1, m2.
    destruct (Z.eqb_spec x a); [contradiction|reflexivity].
Defined.

(** X12.  [calculate_crc] reads only: it leaves the manager's fields and the
    memory as they are, makes no capability write or erase, and a second call
    right after gives the same value. *)
Theorem calculate_crc_is_read_only :
  forall (D : Type) (s : Sys D),
    let s' := snd (calculate_crc s) in
    self s' = self s /\
    mem (mach s') = mem (mach s) /\
    (exists ext, log s' = log s ++ ext /\
                 write_events ext = [] /\ erase_events ext = []) /\
    fst (calculate_crc s') = fst (calculate_crc s).
Proof.
  intros D s s'. subst s'.
  destruct (m_operations (self s)) as [o|] eqn:Ho.
  - rewrite (calculate_crc_bound o s Ho). cbn [fst snd].
    rewrite (calculate_crc_bound o) by exact Ho.
    cbn [fst self mach mem locked unlocked log].
    split; [reflexivity|]. split; [reflexivity|].
    split; [|reflexivity].
    exists [EvUnlock; EvLock]. repeat split.
  - assert (H : calculate_crc s = (0, s)).
    { unfold calculate_crc, bind, get_operations, ret. rewrite Ho.
      reflexivity. }
    rewrite H. cbn [fst snd]. rewrite H.
    split; [reflexivity|]. split; [reflexivity|].
    split; [|reflexivity].
    exists []. split; [symmetry; apply app_nil_r|]. split; reflexivity.
Qed.

(** ** The write of the STM32G0 capability *)

Section G0Write.

Context {D : Type}.
Variable program : Z -> Z -> Machine D -> bool * Machine D.

Local Abbreviation write_loop := (G0.write_loop program).

(** The calls a run of the loop adds: calls that passed, then at most one
    that failed, which ends the loop with [false]. *)
Lemma write_loop_trace (fuel : nat) :
  forall address data size i mc calls r mc' calls',
    write_loop fuel address data size i mc calls = Some (r, mc', calls') ->
    exists good bad,
      calls' = calls ++ good ++ bad /\
      forallb G0.call_passed good = true /\
      (r = true -> bad = []) /\
      (r = false -> exists a dw, bad = [(a, dw, false)]).
Proof.
  induction fuel as [|fuel IH];
    intros address data size i mc calls r mc' calls' H; [discriminate|].
  cbn [G0.write_loop] in H.
  destruct (i <? size).
  - destruct (program address (G0.load64 (mem mc) data) mc) as [ok mc1].
    destruct ok.
    + destruct (negb (load8 (mem mc1) address =? load8 (mem mc1) data)).
      * injection H as <- <- <-. exists [], [(address, G0.load64 (mem mc) data, false)].
        repeat split; try discriminate. eauto.
      * apply IH in H as (good & bad & -> & Hgood & Ht & Hf).
        exists ((address, G0.load64 (mem mc) data, true) :: good), bad.
        rewrite <- !app_assoc. repeat split; assumption.
    + injection H as <- <- <-. exists [], [(address, G0.load64 (mem mc) data, false)].
      repeat split; try discriminate. eauto.
  - injection H as <- <- <-. exists [], [].
    rewrite app_nil_r. repeat split; discriminate.
Qed.

(** The targets of the calls go up by eight, in 32 bits. *)
Lemma write_loop_targets (fuel : nat) :
  forall address data size i mc calls r mc' calls',
    write_loop fuel address data size i mc calls = Some (r, mc', calls') ->
    exists new,
      calls' = calls ++ new /\
      map G0.call_target new =
        map (fun k => if (k =? 0)%nat then address
                      else wrap32 (address + 8 * Z.of_nat k))
            (seq 0 (List.length new)).
Proof.
  induction fuel as [|fuel IH];
    intros address data size i mc calls r mc' calls' H; [discriminate|].
  cbn [G0.write_loop] in H.
  destruct (i <? size).
  - destruct (program address (G0.load64 (mem mc) data) mc) as [ok mc1].
    destruct ok.
    + destruct (negb (load8 (mem mc1) address =? load8 (mem mc1) data)).
      * injection H as <- <- <-. eexists. split; reflexivity.
      * apply IH in H as (new & -> & Hnew).
        exists ((address, G0.load64 (mem mc) data, true) :: new).
        rewrite <- app_assoc. split; [reflexivity|].
        cbn [map List.length seq Nat.eqb G0.call_target fst].
        f_equal. rewrite Hnew, <- seq_shift, map_map.
        apply map_ext. intros k. cbn [Nat.eqb].
        destruct k as [|k]; cbn [Nat.eqb].
        -- reflexivity.
        -- rewrite wrap32_add_l. f_equal. lia.
    + injection H as <- <- <-. eexists. split; reflexivity.
  - injection H as <- <- <-. exists []. rewrite app_nil_r. split; reflexivity.
Qed.

(** While the index is not beyond the last multiple of eight that 32 bits
    hold, a run that ends in [true] has made one call for every eight bytes
    begun. *)
Lemma write_loop_count (size : Z) (fuel : nat) :
  size <= 2 ^ 32 - 8 ->
  forall address data i mc calls mc' calls',
    0 <= i ->
    write_loop fuel address data size i mc calls = Some (true, mc', calls') ->
    List.length calls' =
      (List.length calls + Z.to_nat ((size - i + 7) / 8))%nat.
Proof.
  intros Hsize. change (2 ^ 32) with 4294967296 in Hsize.
  induction fuel as [|fuel IH];
    intros address data i mc calls mc' calls' Hi H; [discriminate|].
  cbn [G0.write_loop] in H.
  destruct (Z.ltb_spec i size) as [Hlt|Hge].
  - destruct (program address (G0.load64 (mem mc) data) mc) as [ok mc1].
    destruct ok; [|discriminate].
    destruct (negb (load8 (mem mc1) address =? load8 (mem mc1) data));
      [discriminate|].
    assert (Hw : wrap32 (i + 8) = i + 8).
    { apply wrap32_small. change (2 ^ 32) with 4294967296. lia. }
    rewrite Hw in H. apply IH in H; [|lia].
    rewrite H, length_app. cbn [List.length].
    replace (size - i + 7) with ((size - (i + 8) + 7) + 1 * 8) by lia.
    rewrite Z.div_add by lia.
    assert (0 <= (size - (i + 8) + 7) / 8) by (apply Z.div_pos; lia).
    lia.
  - injection H as _ <-.
    assert (Hq : (size - i + 7) / 8 <= 0).
    { assert ((size - i + 7) / 8 < 1); [|lia].
      apply Z.div_lt_upper_bound; lia. }
    lia.
Qed.

(** Beyond that bound the index, a multiple of eight, stays below the length
    for ever: the loop never ends in [true]. *)
Lemma write_loop_never_true (size : Z) (fuel : nat) :
  2 ^ 32 - 8 < size ->
  forall address data i mc calls mc' calls',
    0 <= i < 2 ^ 32 -> i mod 8 = 0 ->
    write_loop fuel address data size i mc calls <> Some (true, mc', calls').
Proof.
  intros Hsize. change (2 ^ 32) with 4294967296 in Hsize.
  induction fuel as [|fuel IH];
    intros address data i mc calls mc' calls' Hi Hal H; [discriminate|].
  change (2 ^ 32) with 4294967296 in Hi.
  cbn [G0.write_loop] in H.
  destruct (Z.ltb_spec i size) as [Hlt|Hge].
  - destruct (program address (G0.load64 (mem mc) data) mc) as [ok mc1].
    destruct ok; [|discriminate].
    destruct (negb (load8 (mem mc1) address =? load8 (mem mc1) data));
      [discriminate|].
    revert H. apply IH.
    + unfold wrap32. apply Z.mod_pos_bound. reflexivity.
    + unfold wrap32. change (2 ^ 32) with 4294967296.
      clear - Hal. Z.div_mod_to_equations. lia.
  - assert (i <= 4294967288); [|lia].
    pose proof (Z.div_mod i 8 ltac:(lia)) as Hdm. rewrite Hal in Hdm. lia.
Qed.

(** Within the bound the loop ends, whatever the HAL answers. *)
Lemma write_loop_ends (size : Z) (fuel : nat) :
  size <= 2 ^ 32 - 8 ->
  forall address data i mc calls,
    0 <= i ->
    (Z.to_nat ((size - i + 7) / 8) < fuel)%nat ->
    write_loop fuel address data size i mc calls <> None.
Proof.
  intros Hsize. change (2 ^ 32) with 4294967296 in Hsize.
  induction fuel as [|fuel IH]; intros address data i mc calls Hi Hfuel;
    [lia|].
  cbn [G0.write_loop].
  destruct (Z.ltb_spec i size) as [Hlt|Hge]; [|discriminate].
  destruct (program address (G0.load64 (mem mc) data) mc) as [ok mc1].
  destruct ok; [|discriminate].
  destruct (negb (load8 (mem mc1) address =? load8 (mem mc1) data));
    [discriminate|].
  assert (Hw : wrap32 (i + 8) = i + 8).
  { apply wrap32_small. change (2 ^ 32) with 4294967296. lia. }
  rewrite Hw. apply IH; [lia|].
  replace (size - i + 7) with ((size - (i + 8) + 7) + 1 * 8) in Hfuel by lia.
  rewrite Z.div_add in Hfuel by lia.
  assert (0 <= (size - (i + 8) + 7) / 8) by (apply Z.div_pos; lia).
  lia.
Qed.

End G0Write.

(** X13.  When the G0 write returns [true], the length was at most
    [2^32 - 8], every programming call passed, there was one call for every
    eight bytes begun, at targets eight apart from [address] on: the flash is
    programmed in whole double words, up to seven bytes beyond [size] when
    [size] is not a multiple of eight, and not at all when [size] is zero. *)
Theorem g0_write_success :
  forall (D : Type) (program : Z -> Z -> Machine D -> bool * Machine D)
         (fuel : nat) (address data size : Z) (mc mc' : Machine D)
         (calls : list G0.program_call),
    G0.write program fuel address data size mc = Some (true, mc', calls) ->
    size <= 2 ^ 32 - 8 /\
    List.length calls = Z.to_nat ((size + 7) / 8) /\
    forallb G0.call_passed calls = true /\
    map G0.call_target calls =
      map (fun k => if (k =? 0)%nat then address
                    else wrap32 (address + 8 * Z.of_nat k))
          (seq 0 (List.length calls)) /\
    size <= 8 * Z.of_nat (List.length calls) /\
    (0 <= size -> 8 * Z.of_nat (List.length calls) < size + 8).
Proof.
  intros D program fuel address data size mc mc' calls H.
  unfold G0.write in H.
  assert (Hsize : size <= 2 ^ 32 - 8).
  { destruct (Z.le_gt_cases size (2 ^ 32 - 8)) as [Hle|Hgt]; [exact Hle|].
    exfalso.
    apply (write_loop_never_true program size fuel ltac:(lia)
             address data 0 mc [] mc' calls); [|reflexivity|exact H].
    split; [discriminate|reflexivity]. }
  pose proof (write_loop_count program size fuel Hsize _ _ 0 _ _ _ _
                ltac:(lia) H) as Hcount.
  cbn [List.length Nat.add] in Hcount. rewrite Z.sub_0_r in Hcount.
  destruct (write_loop_trace program fuel _ _ _ _ _ _ _ _ _ H)
    as (good & bad & Hcalls & Hgood & Hbad & _).
  rewrite (Hbad eq_refl), app_nil_r in Hcalls. cbn [app] in Hcalls.
  destruct (write_loop_targets program fuel _ _ _ _ _ _ _ _ _ H)
    as (new & Hnew & Htargets).
  cbn [app] in Hnew. subst new.
  split; [exact Hsize|]. split; [exact Hcount|].
  split; [rewrite Hcalls; exact Hgood|]. split; [exact Htargets|].
  rewrite Hcount.
  destruct (Z.le_gt_cases size 0) as [Hneg|Hpos].
  - assert (Hq : (size + 7) / 8 <= 0).
    { assert ((size + 7) / 8 < 1); [|lia].
      apply Z.div_lt_upper_bound; lia. }
    split; [lia|]. intros H0.
    replace size with 0 in * by lia. cbn. lia.
  - assert (Hq : 0 <= (size + 7) / 8) by (apply Z.div_pos; lia).
    rewrite Z2Nat.id by exact Hq.
    pose proof (Z.div_mod (size + 7) 8 ltac:(lia)) as Hdm.
    pose proof (Z.mod_pos_bound (size + 7) 8 ltac:(lia)) as Hm.
    lia.
Qed.

(** X13 on a HAL that programs what it is given: twelve bytes take two
    double words, at [START_ADDRESS] and [START_ADDRESS + 8]. *)
Lemma g0_write_success_witness :
  let src := Double.mem_with 0x20000000
               [x01; x02; x03; x04; x05; x06; x07; x08; x09; x0a; x0b; x0c] in
  exists mc' calls,
    G0.write G0.program_ok 3 START_ADDRESS 0x20000000 12
      (BootOps.mkMachine src tt) = Some (true, mc', calls) /\
    map G0.call_target calls = [START_ADDRESS; START_ADDRESS + 8].
Proof.
  intros src.
  destruct (G0.write G0.program_ok 3 START_ADDRESS 0x20000000 12
              (BootOps.mkMachine src tt)) as [[[r mc'] calls]|] eqn:E.
  - assert (Hr : match G0.write G0.program_ok 3 START_ADDRESS 0x20000000 12
                         (BootOps.mkMachine src tt) with
                 | Some (r0, _, _) => r0
                 | None => false
                 end = true) by (vm_compute; reflexivity).
    rewrite E in Hr. subst r.
    exists mc', calls. split; [reflexivity|].
    destruct (g0_write_success _ _ _ _ _ _ _ _ _ E)
      as (_ & Hlen & _ & Htargets & _).
    rewrite Htargets, Hlen. vm_compute. reflexivity.
  - exfalso.
    assert (H : match G0.write G0.program_ok 3 START_ADDRESS 0x20000000 12
                        (BootOps.mkMachine src tt) with
                | Some _ => true
                | None => false
                end = true) by (vm_compute; reflexivity).
    rewrite E in H. discriminate.
Defined.

(** X14.  For every length up to [2^32 - 8] the G0 write returns, whatever
    the HAL answers, after at most one turn of its loop for every eight bytes
    begun; for a length of zero it returns [true] with nothing programmed and
    the machine untouched. *)
Theorem g0_write_terminates :
  forall (D : Type) (program : Z -> Z -> Machine D -> bool * Machine D)
         (fuel : nat) (address data size : Z) (mc : Machine D),
    size <= 2 ^ 32 - 8 ->
    (Z.to_nat ((size + 7) / 8) < fuel)%nat ->
    G0.write program fuel address data size mc <> None /\
    (size <= 0 -> G0.write program fuel address data size mc = Some (true, mc, [])).
Proof.
  intros D program fuel address data size mc Hsize Hfuel. split.
  - unfold G0.write. apply write_loop_ends; [exact Hsize|lia|].
    rewrite Z.sub_0_r. exact Hfuel.
  - intros H0. destruct fuel as [|fuel]; [lia|].
    unfold G0.write. cbn [G0.write_loop].
    destruct (Z.ltb_spec 0 size) as [Hlt|_]; [lia|reflexivity].
Qed.

(** X14 on a HAL that fails at the second double word. *)
Lemma g0_write_terminates_witness :
  G0.write (G0.program_fails_at (START_ADDRESS + 8)) 4 START_ADDRESS
    0x20000000 24 (BootOps.mkMachine (fun _ => x00) tt) <> None /\
  G0.write (G0.program_fails_at (START_ADDRESS + 8)) 1 START_ADDRESS
    0x20000000 0 (BootOps.mkMachine (fun _ => x00) tt)
  = Some (true, BootOps.mkMachine (fun _ => x00) tt, []).
Proof.
  split.
  - apply (g0_write_terminates unit (G0.program_fails_at (START_ADDRESS + 8))
             4 START_ADDRESS 0x20000000 24).
    + vm_compute. discriminate.
    + vm_compute. lia.
  - apply (g0_write_terminates unit (G0.program_fails_at (START_ADDRESS + 8))
             1 START_ADDRESS 0x20000000 0).
    + vm_compute. discriminate.
    + vm_compute. lia.
    + discriminate.
Defined.

(** X15.  When the G0 write returns [false], the call that failed (the HAL
    did not say [HAL_OK], or the first byte read back different) is the last
    one made, and every call before it passed: nothing is programmed after a
    failure. *)
Theorem g0_write_stops_at_first_failure :
  forall (D : Type) (program : Z -> Z -> Machine D -> bool * Machine D)
         (fuel : nat) (address data size : Z) (mc mc' : Machine D)
         (calls : list G0.program_call),
    G0.write program fuel address data size mc = Some (false, mc', calls) ->
    exists good a dw,
      calls = good ++ [(a, dw, false)] /\
      forallb G0.call_passed good = true /\
      a = (if (List.length good =? 0)%nat then address
           else wrap32 (address + 8 * Z.of_nat (List.length good))).
Proof.
  intros D program fuel address data size mc mc' calls H.
  unfold G0.write in H.
  destruct (write_loop_trace program fuel _ _ _ _ _ _ _ _ _ H)
    as (good & bad & Hcalls & Hgood & _ & Hbad).
  destruct (Hbad eq_refl) as (a & dw & ->).
  cbn [app] in Hcalls.
  destruct (write_loop_targets program fuel _ _ _ _ _ _ _ _ _ H)
    as (new & Hnew & Htargets).
  cbn [app] in Hnew. subst new.
  exists good, a, dw. split; [exact Hcalls|]. split; [exact Hgood|].
  rewrite Hcalls in Htargets.
  rewrite map_app, length_app in Htargets. cbn [map List.length] in Htargets.
  replace (List.length good + 1)%nat with (S (List.length good)) in Htargets
    by lia.
  rewrite seq_S, map_app in Htargets. cbn [map Nat.add] in Htargets.
  apply (f_equal (fun l => nth (List.length good) l 0)) in Htargets.
  rewrite !app_nth2 in Htargets by (rewrite !length_map, ?length_seq; lia).
  rewrite !length_map, length_seq, Nat.sub_diag in Htargets.
  exact Htargets.
Qed.

(** X15 on a HAL that fails at the second double word of three. *)
Lemma g0_write_stops_at_first_failure_witness :
  exists mc' calls,
    G0.write (G0.program_fails_at (START_ADDRESS + 8)) 4 START_ADDRESS
      0x20000000 24 (BootOps.mkMachine (fun _ => x00) tt)
    = Some (false, mc', calls) /\
    exists good dw,
      calls = good ++ [(START_ADDRESS + 8, dw, false)] /\
      List.length good = 1%nat.
Proof.
  destruct (G0.write (G0.program_fails_at (START_ADDRESS + 8)) 4 START_ADDRESS
              0x20000000 24 (BootOps.mkMachine (fun _ => x00) tt))
    as [[[r mc'] calls]|] eqn:E.
  - assert (Hr : match G0.write (G0.program_fails_at (START_ADDRESS + 8)) 4
                         START_ADDRESS 0x20000000 24
                         (BootOps.mkMachine (fun _ => x00) tt) with
                 | Some (r0, _, l) => (r0, List.length l)
                 | None => (true, 0%nat)
                 end = (false, 2%nat)) by (vm_compute; reflexivity).
    rewrite E in Hr. injection Hr as -> Hlen.
    exists mc', calls. split; [reflexivity|].
    destruct (g0_write_stops_at_first_failure _ _ _ _ _ _ _ _ _ E)
      as (good & a & dw & Hcalls & _ & Ha).
    assert (Hgood : List.length good = 1%nat).
    { rewrite Hcalls, length_app in Hlen. cbn [List.length] in Hlen. lia. }
    rewrite Hgood in Ha. cbn [Nat.eqb] in Ha.
    exists good, dw. split; [|exact Hgood].
    rewrite Hcalls, Ha. reflexivity.
  - exfalso.
    assert (H : match G0.write (G0.program_fails_at (START_ADDRESS + 8)) 4
                        START_ADDRESS 0x20000000 24
                        (BootOps.mkMachine (fun _ => x00) tt) with
                | Some _ => true
                | None => false
                end = true) by (vm_compute; reflexivity).
    rewrite E in H. discriminate.
Defined.

(** X16.  The G0 write reads back one byte of each double word: when the HAL
    says [HAL_OK] and the first byte at the target equals the first byte of
    the source, a write of up to eight bytes returns [true], whatever the
    other seven bytes of the target have become. *)
Theorem g0_write_verifies_first_byte_only :
  forall (D : Type) (program : Z -> Z -> Machine D -> bool * Machine D)
         (fuel : nat) (address data size : Z) (mc : Machine D),
    0 < size <= 8 ->
    let dw := G0.load64 (mem mc) data in
    let mc1 := snd (program address dw mc) in
    fst (program address dw mc) = true ->
    load8 (mem mc1) address = load8 (mem mc1) data ->
    G0.write program (S (S fuel)) address data size mc =
      Some (true, mc1, [(address, dw, true)]).
Proof.
  intros D program fuel address data size mc Hsize dw mc1 Hok Hbyte.
  unfold G0.write. cbn [G0.write_loop].
  destruct (Z.ltb_spec 0 size) as [_|Hge]; [|lia].
  fold dw. subst mc1.
  destruct (program address dw mc) as [ok mc1]. cbn [fst snd] in *.
  subst ok. rewrite Hbyte, Z.eqb_refl. cbn [negb app].
  assert (Hw : wrap32 (0 + 8) = 8) by reflexivity. rewrite Hw.
  destruct (Z.ltb_spec 8 size) as [Hlt|_]; [lia|reflexivity].
Qed.

(** X16 on a HAL that programs the first byte and clears the other seven:
    the write returns [true] and the second byte of the flash is not the
    second byte of the source. *)
Lemma g0_write_verifies_first_byte_only_witness :
  let src := Double.mem_with 0x20000000
               [x11; x22; x33; x44; x55; x66; x77; x88] in
  let mc := BootOps.mkMachine src tt in
  exists mc',
    G0.write G0.program_first_byte 2 START_ADDRESS 0x20000000 8 mc =
      Some (true, mc', [(START_ADDRESS, G0.load64 src 0x20000000, true)]) /\
    mem mc' (START_ADDRESS + 1) = x00 /\
    mem mc' (0x20000000 + 1) = x22.
Proof.
  intros src mc.
  eexists. split; [|split].
  - apply (g0_write_verifies_first_byte_only unit G0.program_first_byte 0
             START_ADDRESS 0x20000000 8 mc).
    + split; [reflexivity|discriminate].
    + reflexivity.
    + vm_compute. reflexivity.
  - vm_compute. reflexivity.
  - vm_compute. reflexivity.
Defined.

(** ** The jump through the STM32G0 capability *)

(** X17.  With a capability whose [deinit_systick] is the G0 one,
    [jump_to_app] hands over with the SysTick registers cleared, the vector
    table at [START_ADDRESS], the main stack pointer set to the first word of
    the application image and control at its second word, both words read
    from the memory as [deinit_peripherals] left it. *)
Theorem jump_to_app_sets_up_the_application :
  forall (H : Type) (o : BootOperations (G0.Dev H)) (s : Sys (G0.Dev H)),
    m_operations (self s) = Some o ->
    BootOps.deinit_systick o = G0.deinit_systick ->
    let image := mem (BootOps.deinit_peripherals o (mach s)) in
    exists s',
      jump_to_app s = Transferred (load32 image (START_ADDRESS + 4)) s' /\
      mem (mach s') = image /\
      G0.regs (dev (mach s')) =
        {| G0.SysTick_CTRL := 0; G0.SysTick_LOAD := 0; G0.SysTick_VAL := 0;
           G0.SCB_VTOR := START_ADDRESS;
           G0.MSP := load32 image START_ADDRESS |}.
Proof.
  intros H o s Ho Hsys image.
  unfold jump_to_app, call_deinit_peripherals, call_deinit_systick.
  rewrite Ho. cbn [mach log self]. rewrite Hsys.
  eexists. split; [reflexivity|]. split; reflexivity.
Qed.

(** X17 on a vector table with stack pointer [0x20005000] and reset handler
    [0x08006101]. *)
Lemma jump_to_app_sets_up_the_application_witness :
  let o : BootOperations (G0.Dev unit) :=
    {| BootOps.unlock := fun d => d;
       BootOps.lock := fun d => d;
       BootOps.write := fun _ _ _ mc => (true, mc);
       BootOps.erase_app := fun mc => (true, mc);
       BootOps.deinit_peripherals := fun mc => mc;
       BootOps.deinit_systick := G0.deinit_systick |} in
  let vt := [x00; x50; x00; x20; x01; x61; x00; x08] in
  let s := fresh (Some o)
             (BootOps.mkMachine (Double.mem_with START_ADDRESS vt)
                (G0.mkDev (G0.mkRegs 7 999 12 0 0x20000400) tt)) in
  exists s',
    jump_to_app s = Transferred 0x08006101 s' /\
    G0.MSP (G0.regs (dev (mach s'))) = 0x20005000.
Proof.
  intros o vt s.
  destruct (jump_to_app_sets_up_the_application unit o s eq_refl eq_refl)
    as (s' & Hjump & _ & Hregs).
  exists s'. split; [exact Hjump|].
  rewrite Hregs. reflexivity.
Defined.
